(** * Verification of the kill_tree core: tree model, traversal and driver

    Shallow embedding of [crates/libs/kill_tree/src/common.rs] (tree model,
    breadth-first traversal, output enrichment, execution driver), of the
    Windows adapter [windows.rs] (validation, filter, killer, enumeration) and
    of the macOS enumeration [macos.rs].  Process ids are [u32] in the source;
    they are modelled as [N].  The [HashMap]s of the source are stdpp [gmap]s. *)

From Stdlib Require Import ZArith Lia ListDec.
From stdpp Require Import base list gmap sorting strings.

Open Scope N_scope.

(** ** Data model ([core.rs] is not part of the sources) *)

(** Modelled from the spec: [core::ProcessInfo] (Section 3, ProcessInfo). *)
Record ProcessInfo := mkProcessInfo {
  process_id : N;
  parent_process_id : N;
  name : string
}.

(** Modelled from the spec: [core::Config]; only [include_target] is used by
    the core (Section 6). *)
Record Config := mkConfig { include_target : bool }.

(** Modelled from the spec: [core::Error], with the kinds of Section 7 and the
    variants the adapters construct ([Error::Windows], [Error::InvalidCast],
    [io::Error] conversions).  OS error codes are kept as integers. *)
Inductive Error :=
| InvalidProcessId (pid : N) (reason : string)
| ProcessIdTooLarge (pid : N) (available_max : N)
| InvalidCast (reason : string)
| Windows (code : Z)
| Io (code : Z).

(** Rust's [Result]. *)
Inductive result (A : Type) :=
| Ok (a : A)
| Err (e : Error).
Arguments Ok {A} a.
Arguments Err {A} e.

(** [core::KillOutput]: the Terminator's classified outcome. *)
Inductive KillOutput :=
| KOKilled (process_id : N)
| KOMaybeAlreadyTerminated (process_id : N) (source : Error).

(** [core::Output]: one user-facing record. *)
Inductive Output :=
| OKilled (process_id parent_process_id : N) (name : string)
| OMaybeAlreadyTerminated (process_id : N) (source : Error).

Abbreviation ChildProcessIdMap := (gmap N (list N)).
Abbreviation ProcessInfoMap := (gmap N ProcessInfo).

(** ** Tree model ([common.rs], [get_child_process_id_map]) *)

(** [children.sort_unstable()] on [u32]: every sort returns the same list on a
    total order of integers, so stdpp's merge sort stands for it. *)
Definition sort_unstable (l : list N) : list N := merge_sort (≤)%N l.

(** One iteration of the grouping loop:
    [if filter(p) { continue }; map.entry(ppid).or_default().push(pid)]. *)
Definition group_step (filter : ProcessInfo -> bool)
    (map : ChildProcessIdMap) (process_info : ProcessInfo) : ChildProcessIdMap :=
  if filter process_info then map
  else
    let children := default [] (map !! parent_process_id process_info) in
    <[parent_process_id process_info := children ++ [process_id process_info]]> map.

Definition get_child_process_id_map (process_infos : list ProcessInfo)
    (filter : ProcessInfo -> bool) : ChildProcessIdMap :=
  let map := foldl (group_step filter) ∅ process_infos in
  sort_unstable <$> map.

(** [get_process_info_map]: later entries overwrite earlier ones, as
    [HashMap::insert] does. *)
Definition get_process_info_map (process_infos : list ProcessInfo) : ProcessInfoMap :=
  foldl (fun map process_info => <[process_id process_info := process_info]> map)
    ∅ process_infos.

(** ** Traversal ([common.rs], [get_process_ids_to_kill])

    The [while let Some(process_id) = queue.pop_front()] loop keeps no visited
    set, so it need not terminate; it is run with fuel, one unit per loop
    test, and [None] means the fuel ran out. *)

Definition children_of (m : ChildProcessIdMap) (process_id : N) : list N :=
  default [] (m !! process_id).

Fixpoint bfs_loop (target : N) (m : ChildProcessIdMap) (config : Config)
    (fuel : nat) (queue : list N) (process_ids_to_kill : list N) : option (list N) :=
  match fuel with
  | O => None
  | S fuel' =>
      match queue with
      | [] => Some process_ids_to_kill
      | process_id :: queue' =>
          let process_ids_to_kill' :=
            if N.eqb process_id target then
              if include_target config then process_ids_to_kill ++ [process_id]
              else process_ids_to_kill
            else process_ids_to_kill ++ [process_id] in
          let queue'' :=
            match m !! process_id with
            | Some children => queue' ++ children
            | None => queue'
            end in
          bfs_loop target m config fuel' queue'' process_ids_to_kill'
      end
  end.

Definition get_process_ids_to_kill (fuel : nat) (target_process_id : N)
    (child_process_id_map : ChildProcessIdMap) (config : Config) : option (list N) :=
  bfs_loop target_process_id child_process_id_map config fuel [target_process_id] [].

(** The function returns [ids] (for some amount of fuel). *)
Definition returns_ids (target : N) (m : ChildProcessIdMap) (config : Config)
    (ids : list N) : Prop :=
  exists fuel, get_process_ids_to_kill fuel target m config = Some ids.

(** ** Reachability in the parent-to-children graph *)

(** [level m k x]: the ends of all paths of length [k] from [x], one entry per
    path. *)
Fixpoint level (m : ChildProcessIdMap) (k : nat) (x : N) : list N :=
  match k with
  | O => [x]
  | S k' => flat_map (children_of m) (level m k' x)
  end.

Definition reachable (m : ChildProcessIdMap) (x y : N) : Prop :=
  exists k, In y (level m k x).

(** [y] is reached from [x] by a path of at least one edge. *)
Definition reachable1 (m : ChildProcessIdMap) (x y : N) : Prop :=
  exists k, In y (level m (S k) x).

(** No cycle of the child map is reachable from [target]. *)
Definition acyclic_from (m : ChildProcessIdMap) (target : N) : Prop :=
  forall y, reachable m target y -> ~ reachable1 m y y.

(** Walks along child edges: [walk m x ys z] when [ys] lists the nodes after
    [x] of a path from [x] to [z]. *)
Inductive walk (m : ChildProcessIdMap) : N -> list N -> N -> Prop :=
| walk_nil x : walk m x [] x
| walk_cons x y ys z : In y (children_of m x) -> walk m y ys z -> walk m x (y :: ys) z.

(** Every id that occurs in some children list. *)
Definition all_children (m : ChildProcessIdMap) : list N :=
  flat_map snd (map_to_list m).

(** What one dequeued id contributes to [process_ids_to_kill]. *)
Definition keep (target : N) (config : Config) (x : N) : list N :=
  if N.eqb x target then (if include_target config then [x] else []) else [x].

(** All levels below [D], in order. *)
Fixpoint levels_upto (m : ChildProcessIdMap) (target : N) (D : nat) : list N :=
  match D with
  | O => []
  | S d => levels_upto m target d ++ level m d target
  end.

(** The ids an [Output] and a [KillOutput] report. *)
Definition output_id (o : Output) : N :=
  match o with
  | OKilled process_id _ _ => process_id
  | OMaybeAlreadyTerminated process_id _ => process_id
  end.

Definition kill_output_id (ko : KillOutput) : N :=
  match ko with
  | KOKilled process_id => process_id
  | KOMaybeAlreadyTerminated process_id _ => process_id
  end.

(** The ids of the [Killed] records of a list of outputs. *)
Fixpoint killed_ids (outputs : list Output) : list N :=
  match outputs with
  | [] => []
  | OKilled process_id _ _ :: rest => process_id :: killed_ids rest
  | OMaybeAlreadyTerminated _ _ :: rest => killed_ids rest
  end.

(** ** Concrete scenario of Section 8 *)

Definition scenario : list ProcessInfo :=
  [mkProcessInfo 1 0 "init"; mkProcessInfo 2 1 "a";
   mkProcessInfo 3 2 "b"; mkProcessInfo 4 1 "c"].

(** ** Output enrichment ([common.rs], [parse_kill_output])

    The [&mut ProcessInfoMap] argument is threaded explicitly: the function
    returns the optional [Output] together with the updated map.  The bound
    [process_id] of the source is named [id] here, as [process_id] is also the
    field projection. *)
Definition parse_kill_output (kill_output : KillOutput) (process_info_map : ProcessInfoMap)
    : option Output * ProcessInfoMap :=
  match kill_output with
  | KOKilled id =>
      match process_info_map !! id with
      | None => (None, process_info_map)
      | Some process_info =>
          (Some (OKilled (process_id process_info) (parent_process_id process_info)
                   (name process_info)),
           delete id process_info_map)
      end
  | KOMaybeAlreadyTerminated id source =>
      (Some (OMaybeAlreadyTerminated id source), process_info_map)
  end.

(** ** Execution driver ([common.rs], [kill_tree_internal]) *)

(** A Terminator ([Killable::kill]). *)
Abbreviation Killer := (N -> result KillOutput).

(** The [for &process_id in process_ids_to_kill.iter().rev()] loop.  Besides
    the loop's value it returns [attempted], the ids handed to [killer.kill]
    in order: the termination attempts the call performs. *)
Fixpoint kill_loop (killer : Killer) (process_ids : list N)
    (process_info_map : ProcessInfoMap) (outputs : list Output) (attempted : list N)
    : list N * result (list Output) :=
  match process_ids with
  | [] => (attempted, Ok outputs)
  | process_id :: process_ids' =>
      let attempted' := attempted ++ [process_id] in
      match killer process_id with
      | Err e => (attempted', Err e)
      | Ok kill_output =>
          let '(output, process_info_map') := parse_kill_output kill_output process_info_map in
          let outputs' :=
            match output with
            | Some o => outputs ++ [o]
            | None => outputs
            end in
          kill_loop killer process_ids' process_info_map' outputs' attempted'
      end
  end.

(** [kill_tree_internal], parameterised by the platform's
    [imp::child_process_id_map_filter] and [imp::new_killer].  [None] when the
    traversal runs out of fuel. *)
Definition kill_tree_internal (filter : ProcessInfo -> bool)
    (new_killer : Config -> result Killer) (fuel : nat)
    (process_id : N) (config : Config) (process_infos : list ProcessInfo)
    : option (list N * result (list Output)) :=
  let child_process_id_map := get_child_process_id_map process_infos filter in
  match get_process_ids_to_kill fuel process_id child_process_id_map config with
  | None => None
  | Some process_ids_to_kill =>
      match new_killer config with
      | Err e => Some ([], Err e)
      | Ok killer =>
          let process_info_map := get_process_info_map process_infos in
          Some (kill_loop killer (rev process_ids_to_kill) process_info_map [] [])
      end
  end.

(** Modelled from the spec: the public entry [kill_tree(process_id, config)]
    ([lib.rs]/[blocking.rs] are not part of the sources).  Section 4.1:
    validation "must run before any enumeration or termination is attempted;
    failing here short-circuits the whole operation"; Section 7: an
    enumeration failure "aborts before traversal".  The first component says
    whether the enumeration was started, the second lists the termination
    attempts. *)
Definition kill_tree (validate_process_id : N -> result unit)
    (get_process_infos : result (list ProcessInfo))
    (filter : ProcessInfo -> bool) (new_killer : Config -> result Killer)
    (fuel : nat) (process_id : N) (config : Config)
    : option (bool * list N * result (list Output)) :=
  match validate_process_id process_id with
  | Err e => Some (false, [], Err e)
  | Ok _ =>
      match get_process_infos with
      | Err e => Some (true, [], Err e)
      | Ok process_infos =>
          match kill_tree_internal filter new_killer fuel process_id config process_infos with
          | None => None
          | Some (attempted, r) => Some (true, attempted, r)
          end
      end
  end.

(** Results of OS calls: success with a value, or a failure with its code. *)
Inductive os_call (A : Type) :=
| CallOk (a : A)
| CallErr (code : Z).
Arguments CallOk {A} a.
Arguments CallErr {A} code.

(** [u32::try_from] and [i32::try_from] on integers. *)
Definition u32_try_from (z : Z) : option N :=
  if (0 <=? z)%Z && (z <? 2 ^ 32)%Z then Some (Z.to_N z) else None.
Definition i32_try_from (z : Z) : option Z :=
  if (- 2 ^ 31 <=? z)%Z && (z <? 2 ^ 31)%Z then Some z else None.

(** ** Windows adapter ([windows.rs]) *)
Module Windows.

Definition SYSTEM_IDLE_PROCESS_PROCESS_ID : N := 0.
Definition SYSTEM_PROCESS_ID : N := 4.

Definition validate_process_id (process_id : N) : result unit :=
  if N.eqb process_id SYSTEM_IDLE_PROCESS_PROCESS_ID then
    Err (InvalidProcessId process_id "Not allowed to kill System Idle Process")
  else if N.eqb process_id SYSTEM_PROCESS_ID then
    Err (InvalidProcessId process_id "Not allowed to kill System")
  else Ok tt.

Definition child_process_id_map_filter (process_info : ProcessInfo) : bool :=
  N.eqb (parent_process_id process_info) (process_id process_info).

(** HRESULT values compared by the adapter. *)
Definition E_ACCESSDENIED : Z := 0x80070005.
Definition E_INVALIDARG : Z := 0x80070057.
(** [ERROR_NO_MORE_FILES] is the WIN32_ERROR 18; [.into()] turns it into the
    HRESULT [0x80070012] that [e.code()] is compared with. *)
Definition ERROR_NO_MORE_FILES : Z := 18.
Definition hresult_from_win32 (code : Z) : Z :=
  if (code <=? 0)%Z then code else Z.lor (Z.land code 0xFFFF) 0x80070000.

(** The answers of [OpenProcess], [TerminateProcess] and [CloseHandle] for a
    given process id. *)
Record KillOs := mkKillOs {
  open_process : N -> os_call unit;
  terminate_process : N -> os_call unit;
  close_process_handle : N -> os_call unit
}.

(** [blocking::kill]. *)
Definition kill (os : KillOs) (process_id : N) : result KillOutput :=
  match open_process os process_id with
  | CallOk _ =>
      let r :=
        match terminate_process os process_id with
        | CallOk _ => Ok (KOKilled process_id)
        | CallErr c =>
            if Z.eqb c E_ACCESSDENIED then
              Ok (KOMaybeAlreadyTerminated process_id (Windows c))
            else Err (Windows c)
        end in
      match close_process_handle os process_id with
      | CallErr c => Err (Windows c)
      | CallOk _ => r
      end
  | CallErr c =>
      if Z.eqb c E_INVALIDARG then Ok (KOMaybeAlreadyTerminated process_id (Windows c))
      else Err (Windows c)
  end.

Definition new_killer (os : KillOs) (_config : Config) : result Killer := Ok (kill os).

Record PROCESSENTRY32 := mkPROCESSENTRY32 {
  th32ProcessID : N;
  th32ParentProcessID : N;
  szExeFile : string
}.

(** [std::mem::size_of::<PROCESSENTRY32>()] on x86-64. *)
Definition PROCESSENTRY32_size : Z := 304.

(** The answers of the ToolHelp calls: [CreateToolhelp32Snapshot],
    [Process32First], the successive successful [Process32Next] calls, the
    code of the failing [Process32Next] call that ends the walk, and
    [CloseHandle] on the snapshot. *)
Record Toolhelp := mkToolhelp {
  create_toolhelp32_snapshot : os_call unit;
  process32_first : os_call PROCESSENTRY32;
  process32_next : list PROCESSENTRY32;
  process32_next_end : Z;
  close_snapshot_handle : os_call unit
}.

Definition entry_to_info (e : PROCESSENTRY32) : ProcessInfo :=
  mkProcessInfo (th32ProcessID e) (th32ParentProcessID e) (szExeFile e).

(** The [loop] after a successful [Process32First]: push the current entry,
    then call [Process32Next]. *)
Fixpoint toolhelp_loop (current : PROCESSENTRY32) (nexts : list PROCESSENTRY32)
    (end_code : Z) (process_infos : list ProcessInfo) : list ProcessInfo * option Error :=
  let process_infos' := process_infos ++ [entry_to_info current] in
  match nexts with
  | [] =>
      (process_infos',
       if Z.eqb end_code (hresult_from_win32 ERROR_NO_MORE_FILES) then None
       else Some (Windows end_code))
  | next :: nexts' => toolhelp_loop next nexts' end_code process_infos'
  end.

(** [blocking::get_process_infos]. *)
Definition get_process_infos (os : Toolhelp) : result (list ProcessInfo) :=
  match create_toolhelp32_snapshot os with
  | CallErr c => Err (Windows c)
  | CallOk _ =>
      let '(process_infos, error) :=
        match u32_try_from PROCESSENTRY32_size with
        | Some _ =>
            match process32_first os with
            | CallOk e => toolhelp_loop e (process32_next os) (process32_next_end os) []
            | CallErr c => ([], Some (Windows c))
            end
        | None => ([], Some (InvalidCast "size of PROCESSENTRY32 to u32"))
        end in
      match close_snapshot_handle os with
      | CallErr c => Err (Windows c)
      | CallOk _ =>
          match error with
          | Some e => Err e
          | None => Ok process_infos
          end
      end
  end.

End Windows.

(** ** Unix validation *)
Module Unix.

(** Modelled from the spec: [unix::validate_process_id(process_id, available_max)]
    ([unix.rs] is not part of the sources; [macos.rs] calls it).  Section 4.1:
    it fails with an "invalid/protected id" condition for the OS-reserved ids
    and with an "id too large" condition when the id exceeds the maximum; the
    test in [macos.rs] fixes the too-large error's fields.  The spec leaves the
    reserved ids to be enumerated per OS, so they are a parameter
    [protected], giving the reason for each reserved id. *)
Definition validate_process_id (protected : N -> option string)
    (process_id available_max : N) : result unit :=
  match protected process_id with
  | Some reason => Err (InvalidProcessId process_id reason)
  | None =>
      if N.ltb available_max process_id then
        Err (ProcessIdTooLarge process_id available_max)
      else Ok tt
  end.

End Unix.

(** ** macOS adapter ([macos.rs]) *)
Module MacOS.

Definition AVAILABLE_MAX_PROCESS_ID : N := 99999 - 1.

(** [Impl::validate_process_id], for the reserved ids [protected] of
    [unix.rs]. *)
Definition validate_process_id (protected : N -> option string) (process_id : N) : result unit :=
  Unix.validate_process_id protected process_id AVAILABLE_MAX_PROCESS_ID.

(** [std::mem::size_of::<libproc::proc_bsdinfo>()] and [PROC_PIDTBSDINFO]. *)
Definition proc_bsdinfo_size : Z := 136.
Definition PROC_PIDTBSDINFO : Z := 3.

(** The answers of libproc: the two [proc_listpids] calls, the buffer the
    second one fills ([pid_t] entries), [proc_pidinfo] for a [pid_t] (its
    return value with [pbi_ppid] and [pbi_name]), the order in which the
    [JoinSet] yields the spawned tasks, whether a task joined without a
    [JoinError], and [errno] for [io::Error::last_os_error]. *)
Record Libproc := mkLibproc {
  proc_listpids_size : Z;
  proc_listpids_fill : Z;
  listed_pids : list Z;
  proc_pidinfo : Z -> Z * (N * string);
  join_order : list N -> list N;
  join_ok : N -> bool;
  errno : Z
}.

(** [get_process_info]: every failed conversion or lookup gives [None]. *)
Definition get_process_info (os : Libproc) (process_id : N) : option ProcessInfo :=
  match u32_try_from proc_bsdinfo_size with
  | None => None
  | Some size =>
      match i32_try_from (Z.of_N size), i32_try_from PROC_PIDTBSDINFO,
            i32_try_from (Z.of_N process_id) with
      | Some _, Some _, Some process_id_sign =>
          let '(r, (pbi_ppid, pbi_name)) := proc_pidinfo os process_id_sign in
          if (r <=? 0)%Z then None
          else Some (mkProcessInfo process_id pbi_ppid pbi_name)
      | _, _, _ => None
      end
  end.

(** The spawn loop: ids that do not convert to [u32] are skipped. *)
Fixpoint spawn_ids (process_ids : list Z) : list N :=
  match process_ids with
  | [] => []
  | process_id_sign :: rest =>
      match u32_try_from process_id_sign with
      | Some process_id => process_id :: spawn_ids rest
      | None => spawn_ids rest
      end
  end.

(** The [while let Some(result) = tasks.join_next()] loop over the tasks in
    completion order. *)
Fixpoint join_loop (os : Libproc) (finished : list N)
    (process_infos : list ProcessInfo) : list ProcessInfo :=
  match finished with
  | [] => process_infos
  | process_id :: rest =>
      if join_ok os process_id then
        match get_process_info os process_id with
        | Some process_info => join_loop os rest (process_infos ++ [process_info])
        | None => join_loop os rest process_infos
        end
      else join_loop os rest process_infos
  end.

(** [get_process_infos]. *)
Definition get_process_infos (os : Libproc) : result (list ProcessInfo) :=
  let buffer_size_sign := proc_listpids_size os in
  if (buffer_size_sign <=? 0)%Z then Err (Io (errno os))
  else if (buffer_size_sign <? 0)%Z then Err (InvalidCast "buffer size to usize")
  else
    let r := proc_listpids_fill os in
    if (r <=? 0)%Z then Err (Io (errno os))
    else
      let tasks := spawn_ids (listed_pids os) in
      Ok (join_loop os (join_order os tasks) []).

End MacOS.

(** The ids the grouping loop pushes under parent [p], in push order. *)
Definition pushed_children (filter : ProcessInfo -> bool) (p : N)
    (process_infos : list ProcessInfo) : list N :=
  map process_id
    (List.filter (fun i => negb (filter i) && N.eqb (parent_process_id i) p) process_infos).

Definition opt_app (o : option (list N)) (l : list N) : option (list N) :=
  match o, l with
  | None, [] => None
  | _, _ => Some (default [] o ++ l)
  end.

(** A snapshot in which processes 1 and 2 claim each other as parent. *)
Definition cyclic_snapshot : list ProcessInfo :=
  [mkProcessInfo 1 2 "a"; mkProcessInfo 2 1 "b"].

(** A Windows host on which every [OpenProcess], [TerminateProcess] and
    [CloseHandle] call succeeds. *)
Definition all_ok_os : Windows.KillOs :=
  Windows.mkKillOs (fun _ => CallOk tt) (fun _ => CallOk tt) (fun _ => CallOk tt).

(** A Windows host on which [TerminateProcess] is denied for process 3
    (reported as maybe already terminated) and fails with code 5 for
    process 4. *)
Definition partly_failing_os : Windows.KillOs :=
  Windows.mkKillOs (fun _ => CallOk tt)
    (fun pid => if N.eqb pid 3 then CallErr Windows.E_ACCESSDENIED
                else if N.eqb pid 4 then CallErr 5%Z else CallOk tt)
    (fun _ => CallOk tt).

(** A ToolHelp walk that reads two entries and then fails with
    [E_ACCESSDENIED] instead of [ERROR_NO_MORE_FILES]. *)
Definition toolhelp_mid_failure : Windows.Toolhelp :=
  Windows.mkToolhelp (CallOk tt) (CallOk (Windows.mkPROCESSENTRY32 1 0 "init"))
    [Windows.mkPROCESSENTRY32 2 1 "a"] Windows.E_ACCESSDENIED (CallOk tt).

(** A libproc host listing pids 1, 2 and 3 where the metadata lookup of 2
    fails, tasks complete in spawn order and none panics. *)
Definition libproc_lookup_failure : MacOS.Libproc :=
  MacOS.mkLibproc 12 12 [1; 2; 3]%Z
    (fun pid => if Z.eqb pid 2 then (0%Z, (0, ""%string)) else (136%Z, (0, "p"%string)))
    (fun l => l) (fun _ => true) 0.

(** Each entry of the info map is keyed by its own process id. *)
Definition keyed_by_id (map : ProcessInfoMap) : Prop :=
  forall k info, map !! k = Some info -> process_id info = k.

(** A libproc host whose pid buffer has a zero tail, as [vec![0; buffer_size]]
    leaves it when [proc_listpids] fills only its first entries, and on which
    every lookup succeeds. *)
Definition libproc_zero_tail : MacOS.Libproc :=
  MacOS.mkLibproc 16 8 [1; 2; 0; 0]%Z (fun _ => (136%Z, (0, "p"%string)))
    (fun l => l) (fun _ => true) 0.

(** * Proofs *)

(** ** The traversal, level by level *)
Section Traversal.

Variable m : ChildProcessIdMap.
Variable target : N.
Variable config : Config.

Lemma bfs_loop_step fuel x q acc :
  bfs_loop target m config (S fuel) (x :: q) acc =
  bfs_loop target m config fuel (q ++ children_of m x) (acc ++ keep target config x).
Proof.
  simpl. unfold children_of, keep.
  destruct (m !! x); simpl; rewrite ?app_nil_r;
    destruct (N.eqb x target), (include_target config); rewrite ?app_nil_r; reflexivity.
Qed.

(** Dequeuing a whole prefix [xs] of the queue. *)
Lemma bfs_loop_prefix xs : forall rest acc n,
  bfs_loop target m config (length xs + n) (xs ++ rest) acc =
  bfs_loop target m config n (rest ++ flat_map (children_of m) xs) (acc ++ flat_map (keep target config) xs).
Proof.
  induction xs as [|x xs IH]; intros rest acc n.
  - simpl. rewrite !app_nil_r. reflexivity.
  - cbn [length Nat.add app]. rewrite bfs_loop_step.
    rewrite <- app_assoc, IH. cbn [flat_map]. rewrite !app_assoc. reflexivity.
Qed.

(** Running out of fuel inside a prefix. *)
Lemma bfs_loop_short xs : forall rest acc n,
  (n <= length xs)%nat -> bfs_loop target m config n (xs ++ rest) acc = None.
Proof.
  induction xs as [|x xs IH]; intros rest acc n Hn.
  - simpl in Hn. assert (n = 0%nat) by lia. subst. reflexivity.
  - destruct n as [|n]; [reflexivity|].
    cbn [app]. rewrite bfs_loop_step, <- app_assoc. apply IH. simpl in Hn. lia.
Qed.

(** Dequeuing whole levels: the queue at the start of level [D] is
    [level m D target]. *)
Lemma bfs_loop_levels D : forall n acc,
  bfs_loop target m config (length (levels_upto m target D) + n) [target] acc =
  bfs_loop target m config n (level m D target) (acc ++ flat_map (keep target config) (levels_upto m target D)).
Proof.
  induction D as [|D IH]; intros n acc.
  - simpl. rewrite app_nil_r. reflexivity.
  - cbn [levels_upto]. rewrite length_app, <- Nat.add_assoc, IH.
    pose proof (bfs_loop_prefix (level m D target) [] (acc ++ flat_map (keep target config) (levels_upto m target D)) n)
      as Hp.
    rewrite app_nil_r in Hp. rewrite Hp. cbn [app level].
    rewrite flat_map_app, app_assoc. reflexivity.
Qed.

Lemma bfs_loop_mono fuel : forall q acc l fuel',
  bfs_loop target m config fuel q acc = Some l -> (fuel <= fuel')%nat ->
  bfs_loop target m config fuel' q acc = Some l.
Proof.
  induction fuel as [|fuel IH]; intros q acc l fuel' H Hle; [discriminate|].
  destruct fuel' as [|fuel']; [lia|].
  destruct q as [|x q].
  - exact H.
  - rewrite bfs_loop_step in H |- *. apply IH; [exact H | lia].
Qed.

Lemma level_nil_succ k : level m k target = [] -> level m (S k) target = [].
Proof. intros H. simpl. rewrite H. reflexivity. Qed.

Lemma level_nil_ge D k : level m D target = [] -> (D <= k)%nat -> level m k target = [].
Proof.
  intros H Hle. induction Hle; [exact H|]. apply level_nil_succ. exact IHHle.
Qed.

(** A terminating run reaches an empty level. *)
Lemma bfs_loop_some_level fuel : forall k acc l,
  bfs_loop target m config fuel (level m k target) acc = Some l ->
  exists D, level m D target = [].
Proof.
  induction fuel as [fuel IH] using lt_wf_ind; intros k acc l H.
  destruct (level m k target) as [|x xs] eqn:Hk; [exists k; exact Hk|].
  destruct (Nat.le_gt_cases fuel (length (x :: xs))) as [Hle|Hgt].
  - pose proof (bfs_loop_short (x :: xs) [] acc fuel Hle) as Hs.
    rewrite app_nil_r in Hs. congruence.
  - replace fuel with (length (x :: xs) + (fuel - length (x :: xs)))%nat in H by lia.
    pose proof (bfs_loop_prefix (x :: xs) [] acc (fuel - length (x :: xs))%nat) as Hp.
    rewrite app_nil_r in Hp. rewrite Hp, app_nil_l in H.
    assert (Hs : level m (S k) target = flat_map (children_of m) (x :: xs))
      by (simpl; rewrite Hk; reflexivity).
    rewrite <- Hs in H.
    apply (IH (fuel - length (x :: xs))%nat ltac:(simpl; lia) (S k) _ _ H).
Qed.

(** The value of a terminating traversal. *)
Lemma get_process_ids_to_kill_levels D :
  level m D target = [] ->
  get_process_ids_to_kill (length (levels_upto m target D) + 1) target m config =
  Some (flat_map (keep target config) (levels_upto m target D)).
Proof.
  intros HD. unfold get_process_ids_to_kill.
  rewrite bfs_loop_levels, HD. reflexivity.
Qed.

Lemma get_process_ids_to_kill_spec fuel ids :
  get_process_ids_to_kill fuel target m config = Some ids ->
  exists D, level m D target = [] /\ ids = flat_map (keep target config) (levels_upto m target D).
Proof.
  intros H.
  destruct (bfs_loop_some_level fuel 0 [] ids H) as [D HD].
  exists D. split; [exact HD|].
  pose proof (get_process_ids_to_kill_levels D HD) as H2.
  unfold get_process_ids_to_kill in H, H2.
  apply (bfs_loop_mono _ _ _ _ (Nat.max fuel (length (levels_upto m target D) + 1))) in H;
    [|lia].
  apply (bfs_loop_mono _ _ _ _ (Nat.max fuel (length (levels_upto m target D) + 1))) in H2;
    [|lia].
  congruence.
Qed.

End Traversal.

(** ** Paths and levels *)
Section Paths.

Variable m : ChildProcessIdMap.

Lemma level_trans i j x z w :
  In z (level m i x) -> In w (level m j z) -> In w (level m (i + j) x).
Proof.
  revert w. induction j as [|j IH]; intros w Hz Hw.
  - simpl in Hw. destruct Hw as [<-|[]]. rewrite Nat.add_0_r. exact Hz.
  - simpl in Hw. apply in_flat_map in Hw as [u [Hu Hw]].
    rewrite Nat.add_succ_r. simpl. apply in_flat_map. exists u. split; [|exact Hw].
    apply IH; assumption.
Qed.

Lemma level_iter a k t y :
  In y (level m a t) -> In y (level m (S k) y) ->
  forall n, In y (level m (a + n * S k) t).
Proof.
  intros Ha Hk n. induction n as [|n IH].
  - rewrite Nat.add_0_r. exact Ha.
  - replace (a + S n * S k)%nat with ((a + n * S k) + S k)%nat by lia.
    apply (level_trans _ _ _ y); assumption.
Qed.

Lemma walk_snoc x ys u w :
  walk m x ys u -> In w (children_of m u) -> walk m x (ys ++ [w]) w.
Proof.
  induction 1 as [x|x y ys z Hy Hw IH]; intros Hc; simpl.
  - constructor; [exact Hc | constructor].
  - constructor; [exact Hy | apply IH; exact Hc].
Qed.

Lemma level_walk k : forall x w,
  In w (level m k x) -> exists ys, length ys = k /\ walk m x ys w.
Proof.
  induction k as [|k IH]; intros x w H.
  - simpl in H. destruct H as [<-|[]]. exists []. split; [reflexivity | constructor].
  - simpl in H. apply in_flat_map in H as [u [Hu Hw]].
    destruct (IH x u Hu) as [ys [Hl Hys]].
    exists (ys ++ [w]). split.
    + rewrite length_app, Hl. simpl. lia.
    + apply (walk_snoc _ _ u); assumption.
Qed.

Lemma walk_level x ys z : walk m x ys z -> In z (level m (length ys) x).
Proof.
  induction 1 as [x|x y ys z Hy Hw IH].
  - simpl. left. reflexivity.
  - change (length (y :: ys)) with (1 + length ys)%nat.
    apply (level_trans _ _ _ y); [|exact IH].
    simpl. rewrite app_nil_r. exact Hy.
Qed.

Lemma walk_app ys1 : forall ys2 x z,
  walk m x (ys1 ++ ys2) z -> exists u, walk m x ys1 u /\ walk m u ys2 z.
Proof.
  induction ys1 as [|y ys1 IH]; intros ys2 x z H.
  - exists x. split; [constructor | exact H].
  - simpl in H. inversion H as [|? ? ? ? Hy Hw]; subst.
    destruct (IH _ _ _ Hw) as [u [H1 H2]].
    exists u. split; [constructor; assumption | exact H2].
Qed.

Lemma walk_snoc_end x ys a z : walk m x (ys ++ [a]) z -> exists u, walk m x ys u /\ z = a.
Proof.
  intros H. destruct (walk_app _ _ _ _ H) as [u [H1 H2]].
  exists u. split; [exact H1|].
  inversion H2 as [|? ? ? ? _ Hw]; subst. inversion Hw; subst. reflexivity.
Qed.

Lemma children_in_all x y : In y (children_of m x) -> In y (all_children m).
Proof.
  unfold children_of, all_children. destruct (m !! x) as [cs|] eqn:Hx; simpl; [|tauto].
  intros Hy. apply in_flat_map. exists (x, cs). split; [|exact Hy].
  apply list_elem_of_In, elem_of_map_to_list. exact Hx.
Qed.

Lemma walk_incl x ys z : walk m x ys z -> incl ys (all_children m).
Proof.
  induction 1 as [x|x y ys z Hy Hw IH]; intros v Hv; [destruct Hv|].
  destruct Hv as [<-|Hv]; [apply (children_in_all x); exact Hy | apply IH; exact Hv].
Qed.

Lemma N_decidable_eq : decidable_eq N.
Proof. intros x y. destruct (N.eq_dec x y); [left|right]; assumption. Qed.

(** Without a reachable cycle, the levels below the number of child entries
    plus one exhaust the graph. *)
Lemma acyclic_level_nil target :
  acyclic_from m target -> level m (S (length (all_children m))) target = [].
Proof.
  intros Hac.
  destruct (level m (S (length (all_children m))) target) as [|w ws] eqn:HL; [reflexivity|].
  exfalso.
  assert (Hw : In w (level m (S (length (all_children m))) target)) by (rewrite HL; left; reflexivity).
  destruct (level_walk _ _ _ Hw) as [ys [Hlen Hys]].
  destruct (NoDup_decidable N_decidable_eq ys) as [Hnd|Hnd].
  - pose proof (NoDup_incl_length Hnd (walk_incl _ _ _ Hys)). lia.
  - destruct (not_NoDup N_decidable_eq Hnd) as (a & l1 & l2 & l3 & Heq).
    rewrite Heq in Hys.
    replace (l1 ++ a :: l2 ++ a :: l3) with ((l1 ++ [a]) ++ ((l2 ++ [a]) ++ l3)) in Hys
      by (rewrite <- !app_assoc; reflexivity).
    destruct (walk_app _ _ _ _ Hys) as [u [H1 H2]].
    destruct (walk_snoc_end _ _ _ _ H1) as [? [_ ->]].
    destruct (walk_app _ _ _ _ H2) as [v [H3 _]].
    destruct (walk_snoc_end _ _ _ _ H3) as [? [_ ->]].
    apply (Hac a).
    + exists (length (l1 ++ [a])). apply walk_level. exact H1.
    + exists (length l2). pose proof (walk_level _ _ _ H3) as Hl.
      rewrite length_app, Nat.add_comm in Hl. exact Hl.
Qed.

End Paths.

(** ** Termination of the traversal *)

Lemma bfs_terminates_of_acyclic m target config :
  acyclic_from m target ->
  exists fuel ids, get_process_ids_to_kill fuel target m config = Some ids.
Proof.
  intros Hac.
  pose proof (acyclic_level_nil m target Hac) as HD.
  eexists. eexists. apply (get_process_ids_to_kill_levels m target config _ HD).
Qed.

Lemma acyclic_of_terminates m target config fuel ids :
  get_process_ids_to_kill fuel target m config = Some ids -> acyclic_from m target.
Proof.
  intros H y [a Ha] [k Hk].
  destruct (get_process_ids_to_kill_spec m target config fuel ids H) as [D [HD _]].
  pose proof (level_iter m a k target y Ha Hk D) as Hy.
  rewrite (level_nil_ge m target D) in Hy; [destruct Hy|exact HD|nia].
Qed.

(** C10: the traversal loop, which keeps no visited set, terminates exactly
    when no cycle of the child map is reachable from the target: it
    terminates on every acyclic (in particular every acyclic and
    duplicate-free) reachable part, and never terminates when a reachable id
    lies on a cycle, so acyclicity is required for totality. *)
Theorem get_process_ids_to_kill_terminates_iff_acyclic
    (m : ChildProcessIdMap) (target : N) (config : Config) :
  (exists fuel ids, get_process_ids_to_kill fuel target m config = Some ids) <->
  acyclic_from m target.
Proof.
  split.
  - intros [fuel [ids H]]. exact (acyclic_of_terminates m target config fuel ids H).
  - apply bfs_terminates_of_acyclic.
Qed.


(** C1 (counterexample): on [cyclic_snapshot] with target 1 and
    [include_target = true] the traversal never returns a list, so it does
    not list every reachable id exactly once. *)
Lemma get_process_ids_to_kill_cyclic_diverges :
  ~ (exists fuel ids,
        get_process_ids_to_kill fuel 1
          (get_child_process_id_map cyclic_snapshot Windows.child_process_id_map_filter)
          (mkConfig true) = Some ids).
Proof.
  intros [fuel [ids H]].
  apply (acyclic_of_terminates _ _ _ _ _ H 1).
  - exists 0%nat. left. reflexivity.
  - exists 1%nat. vm_compute. tauto.
Qed.

(** ** The child map *)


Lemma group_fold_lookup filter process_infos : forall (m0 : ChildProcessIdMap) p,
  foldl (group_step filter) m0 process_infos !! p =
  opt_app (m0 !! p) (pushed_children filter p process_infos).
Proof.
  induction process_infos as [|x xs IH]; intros m0 p.
  - simpl. unfold pushed_children. simpl.
    destruct (m0 !! p) as [cs|]; simpl; rewrite ?app_nil_r; reflexivity.
  - simpl. rewrite IH. unfold pushed_children. simpl.
    unfold group_step.
    destruct (filter x) eqn:Hf; simpl; [reflexivity|].
    destruct (N.eqb (parent_process_id x) p) eqn:Hp.
    + apply N.eqb_eq in Hp. subst p. rewrite lookup_insert_eq. simpl.
      destruct (m0 !! parent_process_id x) as [cs|]; simpl;
        rewrite <- ?app_assoc; reflexivity.
    + apply N.eqb_neq in Hp. rewrite lookup_insert_ne by congruence. reflexivity.
Qed.

Lemma children_of_child_map process_infos filter p :
  children_of (get_child_process_id_map process_infos filter) p =
  sort_unstable (pushed_children filter p process_infos).
Proof.
  unfold children_of, get_child_process_id_map. rewrite lookup_fmap, group_fold_lookup.
  rewrite lookup_empty. simpl.
  destruct (pushed_children filter p process_infos); reflexivity.
Qed.

Lemma in_pushed_children filter p process_infos y :
  In y (pushed_children filter p process_infos) <->
  exists i, In i process_infos /\ filter i = false /\ parent_process_id i = p /\ process_id i = y.
Proof.
  unfold pushed_children. rewrite in_map_iff. split.
  - intros [i [Hy Hi]]. apply filter_In in Hi as [Hi Hb].
    apply andb_true_iff in Hb as [Hf Hp]. apply negb_true_iff in Hf. apply N.eqb_eq in Hp.
    exists i. auto.
  - intros [i [Hi [Hf [Hp Hy]]]]. exists i. split; [exact Hy|].
    apply filter_In. split; [exact Hi|]. rewrite Hf, Hp, N.eqb_refl. reflexivity.
Qed.

Lemma in_children_of_child_map process_infos filter p y :
  In y (children_of (get_child_process_id_map process_infos filter) p) <->
  exists i, In i process_infos /\ filter i = false /\ parent_process_id i = p /\ process_id i = y.
Proof.
  rewrite children_of_child_map, <- in_pushed_children. unfold sort_unstable.
  split; apply Permutation_in; [|symmetry]; apply merge_sort_Permutation.
Qed.

(** C6: every children list of the child map is sorted ascending and is a
    permutation of the ids of the entries with that parent that the filter
    keeps, so excluded entries contribute nothing; the Windows filter excludes
    exactly the entries whose parent id equals their own id. *)
Theorem get_child_process_id_map_sorted_filtered
    (process_infos : list ProcessInfo) (filter : ProcessInfo -> bool) (p : N) :
  Sorted N.le (children_of (get_child_process_id_map process_infos filter) p) /\
  Permutation (children_of (get_child_process_id_map process_infos filter) p)
    (map process_id
       (List.filter (fun i => negb (filter i) && N.eqb (parent_process_id i) p) process_infos)) /\
  (forall i, Windows.child_process_id_map_filter i = true <->
             parent_process_id i = process_id i).
Proof.
  rewrite children_of_child_map. unfold sort_unstable. split; [|split].
  - apply Sorted_merge_sort. intros x y. lia.
  - apply merge_sort_Permutation.
  - intros i. unfold Windows.child_process_id_map_filter. apply N.eqb_eq.
Qed.

(** ** Tree-shaped child maps *)

Lemma NoDup_map_inj_in {A B} (f : A -> B) (l : list A) a b :
  List.NoDup (map f l) -> In a l -> In b l -> f a = f b -> a = b.
Proof.
  induction l as [|x l IH]; intros Hnd Ha Hb Hf; [destruct Ha|].
  simpl in Hnd. apply NoDup_cons_iff in Hnd as [Hx Hnd].
  destruct Ha as [<-|Ha], Hb as [<-|Hb]; try reflexivity.
  - exfalso. apply Hx. rewrite Hf. apply in_map. exact Hb.
  - exfalso. apply Hx. rewrite <- Hf. apply in_map. exact Ha.
  - apply IH; assumption.
Qed.

Lemma NoDup_map_filter {A B} (f : A -> B) (P : A -> bool) (l : list A) :
  List.NoDup (map f l) -> List.NoDup (map f (List.filter P l)).
Proof.
  induction l as [|x l IH]; intros Hnd; simpl; [constructor|].
  simpl in Hnd. apply NoDup_cons_iff in Hnd as [Hx Hnd].
  destruct (P x); simpl; [|apply IH; exact Hnd].
  constructor; [|apply IH; exact Hnd].
  intros Hin. apply Hx. apply in_map_iff in Hin as [y [Hy Hin]].
  apply filter_In in Hin as [Hin _]. rewrite <- Hy. apply in_map. exact Hin.
Qed.

(** With distinct process ids in the snapshot, every id has at most one parent
    in the child map ... *)
Lemma child_map_unique_parent process_infos filter p1 p2 y :
  List.NoDup (map process_id process_infos) ->
  In y (children_of (get_child_process_id_map process_infos filter) p1) ->
  In y (children_of (get_child_process_id_map process_infos filter) p2) -> p1 = p2.
Proof.
  intros Hnd H1 H2.
  apply in_children_of_child_map in H1 as [i1 [Hi1 [_ [Hp1 Hy1]]]].
  apply in_children_of_child_map in H2 as [i2 [Hi2 [_ [Hp2 Hy2]]]].
  assert (i1 = i2) as <- by (apply (NoDup_map_inj_in process_id process_infos); congruence).
  congruence.
Qed.

(** ... and every children list is duplicate-free. *)
Lemma child_map_children_NoDup process_infos filter p :
  List.NoDup (map process_id process_infos) ->
  List.NoDup (children_of (get_child_process_id_map process_infos filter) p).
Proof.
  intros Hnd. rewrite children_of_child_map. unfold sort_unstable.
  apply (Permutation_NoDup (l := pushed_children filter p process_infos)).
  - symmetry. apply merge_sort_Permutation.
  - apply NoDup_map_filter. exact Hnd.
Qed.

Section Tree.

Variable m : ChildProcessIdMap.
Hypothesis unique_parent :
  forall p1 p2 y, In y (children_of m p1) -> In y (children_of m p2) -> p1 = p2.
Hypothesis children_NoDup : forall p, List.NoDup (children_of m p).

Lemma count_flat_map_children L y p0 :
  In y (children_of m p0) ->
  count_occ N.eq_dec (flat_map (children_of m) L) y = count_occ N.eq_dec L p0.
Proof.
  intros Hy. induction L as [|x L IH]; [reflexivity|].
  simpl. rewrite count_occ_app, IH.
  destruct (N.eq_dec x p0) as [->|Hne].
  - rewrite (proj1 (NoDup_count_occ' N.eq_dec _) (children_NoDup p0) y Hy). reflexivity.
  - rewrite (proj1 (count_occ_not_In N.eq_dec _ y)); [reflexivity|].
    intros Hx. apply Hne. apply (unique_parent x p0 y); assumption.
Qed.

Lemma level_count_le k t y : (count_occ N.eq_dec (level m k t) y <= 1)%nat.
Proof.
  revert y. induction k as [|k IH]; intros y.
  - simpl. destruct (N.eq_dec t y); simpl; lia.
  - simpl. destruct (in_dec N.eq_dec y (flat_map (children_of m) (level m k t))) as [Hin|Hnin].
    + apply in_flat_map in Hin as [p0 [_ Hp0]].
      rewrite (count_flat_map_children _ _ p0 Hp0). apply IH.
    + rewrite (proj1 (count_occ_not_In N.eq_dec _ y) Hnin). lia.
Qed.

Lemma level_shift t i : forall j y,
  In y (level m i t) -> In y (level m (i + j) t) -> In t (level m j t).
Proof.
  induction i as [|i IH]; intros j y Hi Hij.
  - simpl in Hi. destruct Hi as [<-|[]]. exact Hij.
  - simpl in Hi, Hij. apply in_flat_map in Hi as [u [Hu Hyu]].
    apply in_flat_map in Hij as [v [Hv Hyv]].
    assert (u = v) as <- by (apply (unique_parent u v y); assumption).
    apply (IH j u); assumption.
Qed.

(** In a tree, every reachable id sits on exactly one level. *)
Lemma level_unique t i j y :
  acyclic_from m t -> In y (level m i t) -> In y (level m j t) -> i = j.
Proof.
  intros Hac Hi Hj.
  assert (Hlt : forall a b, In y (level m a t) -> In y (level m b t) -> (a < b)%nat -> False).
  { intros a b Ha Hb Hab.
    replace b with (a + S (b - S a))%nat in Hb by lia.
    pose proof (level_shift t a _ y Ha Hb) as Ht.
    apply (Hac t); [exists 0%nat; left; reflexivity | exists (b - S a)%nat; exact Ht]. }
  destruct (Nat.lt_total i j) as [H|[H|H]]; [exfalso; eauto | exact H | exfalso; eauto].
Qed.

End Tree.

(** ** The discovery order on trees *)

Lemma in_levels_upto m t D y :
  In y (levels_upto m t D) <-> exists a, (a < D)%nat /\ In y (level m a t).
Proof.
  induction D as [|D IH]; simpl.
  - split; [tauto | intros [a [Ha _]]; lia].
  - rewrite in_app_iff, IH. split.
    + intros [[a [Ha Hy]]|Hy]; [exists a; split; [lia|exact Hy] | exists D; split; [lia|exact Hy]].
    + intros [a [Ha Hy]]. destruct (Nat.eq_dec a D) as [->|Hne]; [right; exact Hy|].
      left. exists a. split; [lia|exact Hy].
Qed.

Lemma in_flat_map_keep t c L y : In y (flat_map (keep t c) L) -> In y L.
Proof.
  rewrite in_flat_map. intros [x [Hx Hy]]. unfold keep in Hy.
  destruct (N.eqb x t), (include_target c); simpl in Hy;
    (destruct Hy as [<-|[]]; exact Hx) || destruct Hy.
Qed.

Lemma flat_map_keep_true t c L : include_target c = true -> flat_map (keep t c) L = L.
Proof.
  intros Hc. induction L as [|x L IH]; [reflexivity|].
  simpl. rewrite IH. unfold keep. rewrite Hc. destruct (N.eqb x t); reflexivity.
Qed.

Lemma levels_upto_split m t a D :
  (a < D)%nat ->
  exists R, levels_upto m t D = levels_upto m t (S a) ++ R /\
            forall z, In z R -> exists c, (S a <= c)%nat /\ In z (level m c t).
Proof.
  induction D as [|D IH]; intros Ha; [lia|].
  destruct (Nat.eq_dec a D) as [->|Hne].
  - exists []. rewrite app_nil_r. split; [reflexivity | intros z []].
  - destruct IH as [R [HR Hz]]; [lia|].
    exists (R ++ level m D t). simpl. rewrite HR, app_assoc. split; [reflexivity|].
    intros z Hin. apply in_app_iff in Hin as [Hin|Hin]; [apply Hz; exact Hin|].
    exists D. split; [lia|exact Hin].
Qed.

Section TreeOrder.

Variable m : ChildProcessIdMap.
Variable target : N.
Hypothesis unique_parent :
  forall p1 p2 y, In y (children_of m p1) -> In y (children_of m p2) -> p1 = p2.
Hypothesis children_NoDup : forall p, List.NoDup (children_of m p).
Hypothesis acyclic : acyclic_from m target.

Lemma count_levels_upto D a y :
  In y (level m a target) -> (a < D)%nat ->
  count_occ N.eq_dec (levels_upto m target D) y = 1%nat.
Proof.
  induction D as [|D IH]; intros Hy Ha; [lia|].
  simpl. rewrite count_occ_app.
  destruct (Nat.eq_dec a D) as [->|Hne].
  - rewrite (proj1 (count_occ_not_In N.eq_dec _ y)).
    + pose proof (level_count_le m unique_parent children_NoDup D target y).
      pose proof (proj1 (count_occ_In N.eq_dec (level m D target) y) Hy). lia.
    + intros Hin. apply in_levels_upto in Hin as [c [Hc Hyc]].
      pose proof (level_unique m unique_parent target c D y acyclic Hyc Hy). lia.
  - rewrite IH by (assumption || lia).
    rewrite (proj1 (count_occ_not_In N.eq_dec _ y)); [reflexivity|].
    intros Hin. pose proof (level_unique m unique_parent target a D y acyclic Hy Hin). lia.
Qed.

(** Positions in the discovery order grow with the depth. *)
Lemma discovery_order_depth config D i j x y :
  let ids := flat_map (keep target config) (levels_upto m target D) in
  nth_error ids i = Some x -> nth_error ids j = Some y -> reachable1 m x y -> (i < j)%nat.
Proof.
  intros ids Hi Hj [k Hk].
  pose proof (in_flat_map_keep _ _ _ _ (nth_error_In _ _ Hi)) as Hx.
  apply in_levels_upto in Hx as [a [HaD Hxa]].
  pose proof (level_trans m a (S k) target x y Hxa Hk) as Hya.
  destruct (levels_upto_split m target a D HaD) as [R [HR HRz]].
  unfold ids in Hi, Hj. rewrite HR, flat_map_app in Hi, Hj.
  set (FA := flat_map (keep target config) (levels_upto m target (S a))) in Hi, Hj.
  assert (Hi' : (i < length FA)%nat).
  { destruct (Nat.lt_ge_cases i (length FA)) as [H|H]; [exact H|exfalso].
    rewrite nth_error_app2 in Hi by exact H.
    apply nth_error_In, in_flat_map_keep, HRz in Hi as [c [Hc Hxc]].
    pose proof (level_unique m unique_parent target a c x acyclic Hxa Hxc). lia. }
  assert (Hj' : (length FA <= j)%nat).
  { destruct (Nat.lt_ge_cases j (length FA)) as [H|H]; [exfalso|exact H].
    rewrite nth_error_app1 in Hj by exact H.
    apply nth_error_In, in_flat_map_keep, in_levels_upto in Hj as [c [Hc Hyc]].
    pose proof (level_unique m unique_parent target c (a + S k) y acyclic Hyc Hya). lia. }
  lia.
Qed.

End TreeOrder.

(** The termination attempts of the driver follow its input list. *)
Lemma kill_loop_attempted killer L : forall map outputs attempted,
  exists L1 L2, L = L1 ++ L2 /\
    fst (kill_loop killer L map outputs attempted) = attempted ++ L1.
Proof.
  induction L as [|x L IH]; intros map outputs attempted.
  - exists [], []. simpl. rewrite app_nil_r. split; reflexivity.
  - simpl. destruct (killer x) as [ko|e].
    + destruct (parse_kill_output ko map) as [o map'].
      destruct (IH map' (match o with Some o0 => outputs ++ [o0] | None => outputs end)
                  (attempted ++ [x])) as [L1 [L2 [HL Hf]]].
      exists (x :: L1), L2. split; [rewrite HL; reflexivity|].
      rewrite Hf, <- app_assoc. reflexivity.
    + exists [x], L. split; reflexivity.
Qed.

(** C1 (as amended): for every snapshot whose process ids are distinct and
    whose child map has no cycle reachable from the target, the traversal with
    [include_target = true] returns a list, and every list it returns contains
    each id reachable from the target exactly once and no other id. *)
Theorem get_process_ids_to_kill_tree_exactly_once
    (process_infos : list ProcessInfo) (filter : ProcessInfo -> bool) (target : N) :
  let m := get_child_process_id_map process_infos filter in
  List.NoDup (map process_id process_infos) ->
  acyclic_from m target ->
  (exists ids, returns_ids target m (mkConfig true) ids) /\
  forall ids, returns_ids target m (mkConfig true) ids ->
    forall y, (reachable m target y -> count_occ N.eq_dec ids y = 1%nat) /\
              (~ reachable m target y -> ~ In y ids).
Proof.
  intros m Hnd Hac.
  pose proof (child_map_unique_parent process_infos filter) as Hup.
  pose proof (child_map_children_NoDup process_infos filter) as Hcn.
  split.
  - destruct (bfs_terminates_of_acyclic m target (mkConfig true) Hac) as [fuel [ids H]].
    exists ids, fuel. exact H.
  - intros ids [fuel H] y.
    destruct (get_process_ids_to_kill_spec m target (mkConfig true) fuel ids H) as [D [HD ->]].
    rewrite flat_map_keep_true by reflexivity. split.
    + intros [a Ha]. apply (count_levels_upto m target) with (a := a);
        [intros; eapply Hup; eauto | intros; apply Hcn; exact Hnd | exact Hac | exact Ha |].
      destruct (Nat.lt_ge_cases a D) as [Hlt|Hge]; [exact Hlt|].
      rewrite (level_nil_ge m target D a HD Hge) in Ha. destruct Ha.
    + intros Hnr Hin. apply Hnr. apply in_levels_upto in Hin as [a [_ Ha]]. exists a. exact Ha.
Qed.

(** C2: on a snapshot forming a tree below the target (distinct process ids,
    no cycle reachable from the target), for any configuration, the order in
    which [kill_tree_internal] attempts terminations places every proper
    descendant of a process strictly before that process. *)
Theorem kill_tree_internal_children_first
    (filter : ProcessInfo -> bool) (new_killer : Config -> result Killer) (fuel : nat)
    (target : N) (config : Config) (process_infos : list ProcessInfo)
    (attempted : list N) (r : result (list Output)) :
  let m := get_child_process_id_map process_infos filter in
  List.NoDup (map process_id process_infos) ->
  acyclic_from m target ->
  kill_tree_internal filter new_killer fuel target config process_infos = Some (attempted, r) ->
  forall i j x y,
    nth_error attempted i = Some x -> nth_error attempted j = Some y ->
    reachable1 m x y -> (j < i)%nat.
Proof.
  intros m Hnd Hac Hk i j x y Hi Hj Hxy.
  pose proof (child_map_unique_parent process_infos filter) as Hup.
  pose proof (child_map_children_NoDup process_infos filter) as Hcn.
  unfold kill_tree_internal in Hk. fold m in Hk.
  destruct (get_process_ids_to_kill fuel target m config) as [ids|] eqn:Hids; [|discriminate].
  destruct (new_killer config) as [killer|e].
  2:{ injection Hk as <- _. destruct i; discriminate. }
  injection Hk as Hk.
  destruct (kill_loop_attempted killer (rev ids) (get_process_info_map process_infos) [] [])
    as [L1 [L2 [HL Hf]]].
  rewrite Hk in Hf. simpl in Hf. subst attempted.
  assert (Hrev : forall n z, nth_error L1 n = Some z ->
            (n < length ids)%nat /\ nth_error ids (length ids - S n) = Some z).
  { intros n z Hn.
    assert (Hn1 : (n < length L1)%nat) by (apply nth_error_Some; congruence).
    rewrite <- (nth_error_app1 L1 L2 Hn1), <- HL, nth_error_rev in Hn.
    destruct (Nat.ltb_spec n (length ids)) as [Hlt|]; [split; assumption | discriminate]. }
  destruct (Hrev i x Hi) as [Hil Hi'], (Hrev j y Hj) as [Hjl Hj'].
  destruct (get_process_ids_to_kill_spec m target config fuel ids Hids) as [D [HD Heq]].
  rewrite Heq in Hi', Hj'.
  pose proof (discovery_order_depth m target
                (fun p1 p2 z H1 H2 => Hup p1 p2 z Hnd H1 H2) Hac
                config D _ _ x y Hi' Hj' Hxy).
  lia.
Qed.

(** ** The driver *)

Lemma killed_ids_app outs1 outs2 :
  killed_ids (outs1 ++ outs2) = killed_ids outs1 ++ killed_ids outs2.
Proof.
  induction outs1 as [|[] outs1 IH]; simpl; rewrite ?IH; reflexivity.
Qed.

Lemma get_process_info_map_keyed process_infos : keyed_by_id (get_process_info_map process_infos).
Proof.
  unfold get_process_info_map.
  assert (Hgen : forall (map : ProcessInfoMap) l,
             keyed_by_id map ->
             keyed_by_id (foldl (fun map0 pi => <[process_id pi := pi]> map0) map l)).
  { intros map l. revert map. induction l as [|x l IH]; intros map Hm; simpl; [exact Hm|].
    apply IH. intros k info Hk.
    destruct (decide (process_id x = k)) as [<-|Hne].
    - rewrite lookup_insert_eq in Hk. injection Hk as <-. reflexivity.
    - rewrite lookup_insert_ne in Hk by exact Hne. apply (Hm k info Hk). }
  apply Hgen. intros k info Hk. rewrite lookup_empty in Hk. discriminate.
Qed.

Lemma kill_loop_killed_NoDup killer L : forall map outputs attempted attempted' outputs',
  keyed_by_id map -> List.NoDup (killed_ids outputs) ->
  (forall p, In p (killed_ids outputs) -> map !! p = None) ->
  kill_loop killer L map outputs attempted = (attempted', Ok outputs') ->
  List.NoDup (killed_ids outputs').
Proof.
  induction L as [|x L IH]; intros map outputs attempted attempted' outputs' Hkey Hnd Hout H.
  - simpl in H. injection H as _ <-. exact Hnd.
  - simpl in H. destruct (killer x) as [ko|e]; [|discriminate].
    destruct ko as [id|id src]; simpl in H.
    + destruct (map !! id) as [info|] eqn:Hid.
      * refine (IH _ _ _ _ _ _ _ _ H).
        -- intros k i Hk. apply lookup_delete_Some in Hk as [_ Hk]. exact (Hkey k i Hk).
        -- rewrite killed_ids_app. simpl. rewrite (Hkey id info Hid).
           apply (Permutation_NoDup (l := id :: killed_ids outputs));
             [apply Permutation_cons_append|].
           constructor; [|exact Hnd]. intros Hin. rewrite (Hout id Hin) in Hid. discriminate.
        -- intros p Hp. apply lookup_delete_None.
           rewrite killed_ids_app in Hp. simpl in Hp. rewrite (Hkey id info Hid) in Hp.
           apply in_app_iff in Hp as [Hp|[<-|[]]]; [right; exact (Hout p Hp) | left; reflexivity].
      * apply (IH _ _ _ _ _ Hkey Hnd Hout H).
    + refine (IH _ _ _ _ _ Hkey _ _ H);
        [rewrite killed_ids_app; simpl; rewrite app_nil_r; exact Hnd|].
      intros p Hp. rewrite killed_ids_app in Hp. simpl in Hp. rewrite app_nil_r in Hp.
      exact (Hout p Hp).
Qed.

(** C5: [parse_kill_output] removes a present id's entry and emits the
    enriched [Killed] record, emits nothing for an absent id and leaves the
    map as it is, passes [MaybeAlreadyTerminated] through unchanged without
    touching the map; over a whole run of the driver no id yields two
    [Killed] records. *)
Theorem parse_kill_output_consumes_once :
  (forall (map : ProcessInfoMap) id info, map !! id = Some info ->
     parse_kill_output (KOKilled id) map =
     (Some (OKilled (process_id info) (parent_process_id info) (name info)), delete id map)) /\
  (forall (map : ProcessInfoMap) id, map !! id = None ->
     parse_kill_output (KOKilled id) map = (None, map)) /\
  (forall (map : ProcessInfoMap) id source,
     parse_kill_output (KOMaybeAlreadyTerminated id source) map =
     (Some (OMaybeAlreadyTerminated id source), map)) /\
  (forall killer process_ids process_infos attempted outputs,
     kill_loop killer process_ids (get_process_info_map process_infos) [] [] =
       (attempted, Ok outputs) ->
     List.NoDup (killed_ids outputs)).
Proof.
  split; [|split; [|split]].
  - intros map id info H. simpl. rewrite H. reflexivity.
  - intros map id H. simpl. rewrite H. reflexivity.
  - reflexivity.
  - intros killer L infos attempted outputs H.
    refine (kill_loop_killed_NoDup killer L _ _ _ _ _ (get_process_info_map_keyed infos)
             _ _ H); [constructor | intros p []].
Qed.

Lemma returns_ids_unique target m config ids1 ids2 :
  returns_ids target m config ids1 -> returns_ids target m config ids2 -> ids1 = ids2.
Proof.
  intros [f1 H1] [f2 H2]. unfold get_process_ids_to_kill in H1, H2.
  apply (bfs_loop_mono _ _ _ _ _ _ _ (Nat.max f1 f2)) in H1; [|lia].
  apply (bfs_loop_mono _ _ _ _ _ _ _ (Nat.max f1 f2)) in H2; [|lia].
  congruence.
Qed.

Lemma in_flat_map_keep_iff t c L y :
  In y (flat_map (keep t c) L) <-> In y L /\ (include_target c = true \/ y <> t).
Proof.
  rewrite in_flat_map. unfold keep. split.
  - intros [x [Hx Hy]].
    destruct (N.eqb x t) eqn:Ht, (include_target c) eqn:Hc; simpl in Hy;
      try destruct Hy as [<-|[]]; try contradiction; split; auto.
    right. apply N.eqb_neq. exact Ht.
  - intros [Hy Hc]. exists y. split; [exact Hy|].
    destruct (N.eqb y t) eqn:Ht; [|left; reflexivity].
    apply N.eqb_eq in Ht. destruct Hc as [Hc|Hc]; [rewrite Hc; left; reflexivity | contradiction].
Qed.

(** Membership in a returned discovery list. *)
Lemma get_process_ids_to_kill_In target m config fuel ids y :
  get_process_ids_to_kill fuel target m config = Some ids ->
  (In y ids <-> reachable m target y /\ (include_target config = true \/ y <> target)).
Proof.
  intros H.
  destruct (get_process_ids_to_kill_spec m target config fuel ids H) as [D [HD ->]].
  rewrite in_flat_map_keep_iff, in_levels_upto. split.
  - intros [[a [_ Ha]] Hc]. split; [exists a; exact Ha | exact Hc].
  - intros [[a Ha] Hc]. split; [|exact Hc]. exists a. split; [|exact Ha].
    destruct (Nat.lt_ge_cases a D) as [Hlt|Hge]; [exact Hlt|].
    rewrite (level_nil_ge m target D a HD Hge) in Ha. destruct Ha.
Qed.

Lemma kill_loop_hard_failure killer x e post : forall pre map outputs attempted,
  (forall y, In y pre -> exists ko, killer y = Ok ko) -> killer x = Err e ->
  kill_loop killer (pre ++ x :: post) map outputs attempted = (attempted ++ pre ++ [x], Err e).
Proof.
  induction pre as [|y pre IH]; intros map outputs attempted Hpre Hx.
  - simpl. rewrite Hx. reflexivity.
  - simpl. destruct (Hpre y (or_introl eq_refl)) as [ko Hko]. rewrite Hko.
    destruct (parse_kill_output ko map) as [o map'].
    rewrite IH; [| intros; apply Hpre; right; assumption | exact Hx].
    rewrite <- app_assoc. reflexivity.
Qed.

Lemma kill_loop_no_failure killer L : forall map outputs attempted,
  (forall y, In y L -> exists ko, killer y = Ok ko) ->
  exists outputs', kill_loop killer L map outputs attempted = (attempted ++ L, Ok outputs') /\
    (forall o, In o outputs -> In o outputs') /\
    (forall y id source, In y L -> killer y = Ok (KOMaybeAlreadyTerminated id source) ->
       In (OMaybeAlreadyTerminated id source) outputs').
Proof.
  induction L as [|x L IH]; intros map outputs attempted HL.
  - exists outputs. rewrite app_nil_r. split; [reflexivity|]. split; [tauto|].
    intros y id source [].
  - destruct (HL x (or_introl eq_refl)) as [ko Hko]. simpl. rewrite Hko.
    destruct (parse_kill_output ko map) as [o map'] eqn:Hp.
    set (outs1 := match o with Some o0 => outputs ++ [o0] | None => outputs end).
    destruct (IH map' outs1 (attempted ++ [x])) as [outs' [Hrun [Hpre Hmat]]];
      [intros; apply HL; right; assumption|].
    exists outs'. rewrite Hrun, <- app_assoc. split; [reflexivity|]. split.
    + intros o0 Ho0. apply Hpre. unfold outs1. destruct o; [apply in_or_app; left|]; exact Ho0.
    + intros y id source [<-|Hy] Hy'; [|apply (Hmat y); assumption].
      rewrite Hko in Hy'. injection Hy' as ->. simpl in Hp. injection Hp as <- _.
      apply Hpre. unfold outs1. apply in_or_app. right. left. reflexivity.
Qed.

(** Every output names either an earlier output's id or an id of the list,
    when the killer reports the id it was given. *)
Lemma kill_loop_output_ids killer L : forall map outputs attempted attempted' outputs',
  keyed_by_id map ->
  (forall p ko, killer p = Ok ko -> kill_output_id ko = p) ->
  kill_loop killer L map outputs attempted = (attempted', Ok outputs') ->
  forall o, In o outputs' -> In o outputs \/ In (output_id o) L.
Proof.
  induction L as [|x L IH]; intros map outputs attempted attempted' outputs' Hkey Hrep H o Ho.
  - simpl in H. injection H as _ <-. left. exact Ho.
  - simpl in H. destruct (killer x) as [ko|e] eqn:Hko; [|discriminate].
    pose proof (Hrep x ko Hko) as Hid.
    destruct ko as [id|id src]; simpl in H, Hid; subst id.
    + destruct (map !! x) as [info|] eqn:Hx.
      * assert (Hkey' : keyed_by_id (delete x map)).
        { intros k i Hk. apply lookup_delete_Some in Hk as [_ Hk]. exact (Hkey k i Hk). }
        destruct (IH _ _ _ _ _ Hkey' Hrep H o Ho) as [Hin|Hin]; [|right; right; exact Hin].
        apply in_app_iff in Hin as [Hin|[<-|[]]]; [left; exact Hin|].
        right. left. simpl. symmetry. exact (Hkey x info Hx).
      * destruct (IH _ _ _ _ _ Hkey Hrep H o Ho) as [Hin|Hin]; [left; exact Hin|].
        right. right. exact Hin.
    + destruct (IH _ _ _ _ _ Hkey Hrep H o Ho) as [Hin|Hin]; [|right; right; exact Hin].
      apply in_app_iff in Hin as [Hin|[<-|[]]]; [left; exact Hin|].
      right. left. reflexivity.
Qed.

(** C3: once the traversal has produced [ids] and a killer exists, a hard
    failure of the killer at [x] (all earlier kills having succeeded) makes
    [kill_tree_internal] return that error, with [x] as the last termination
    attempted and no [Outputs] value; when no kill fails hard, the call
    succeeds, attempts every id in reversed discovery order, and every
    [MaybeAlreadyTerminated] outcome appears in the returned [Outputs]. *)
Theorem kill_tree_internal_hard_failure_aborts
    (filter : ProcessInfo -> bool) (new_killer : Config -> result Killer) (fuel : nat)
    (target : N) (config : Config) (process_infos : list ProcessInfo)
    (ids : list N) (killer : Killer) :
  get_process_ids_to_kill fuel target (get_child_process_id_map process_infos filter) config
    = Some ids ->
  new_killer config = Ok killer ->
  (forall pre x post e,
     rev ids = pre ++ x :: post ->
     (forall y, In y pre -> exists ko, killer y = Ok ko) ->
     killer x = Err e ->
     kill_tree_internal filter new_killer fuel target config process_infos
       = Some (pre ++ [x], Err e)) /\
  ((forall y, In y ids -> exists ko, killer y = Ok ko) ->
   exists outputs,
     kill_tree_internal filter new_killer fuel target config process_infos
       = Some (rev ids, Ok outputs) /\
     forall y id source, In y ids -> killer y = Ok (KOMaybeAlreadyTerminated id source) ->
       In (OMaybeAlreadyTerminated id source) outputs).
Proof.
  intros Hids Hk. unfold kill_tree_internal. rewrite Hids, Hk. split.
  - intros pre x post e Hrev Hpre Hx. rewrite Hrev.
    rewrite (kill_loop_hard_failure killer x e post pre _ _ _ Hpre Hx). reflexivity.
  - intros Hall.
    destruct (kill_loop_no_failure killer (rev ids) (get_process_info_map process_infos) [] [])
      as [outs [Hrun [_ Hmat]]].
    + intros y Hy. apply Hall. apply in_rev. exact Hy.
    + exists outs. rewrite Hrun. split; [reflexivity|].
      intros y id source Hy Hy'. apply (Hmat y); [apply in_rev; rewrite rev_involutive|]; assumption.
Qed.

Lemma target_not_own_child target m config fuel ids :
  get_process_ids_to_kill fuel target m config = Some ids -> ~ In target (children_of m target).
Proof.
  intros H Hin. apply (acyclic_of_terminates m target config fuel ids H target).
  - exists 0%nat. left. reflexivity.
  - exists 0%nat. simpl. rewrite app_nil_r. exact Hin.
Qed.

(** C4: with [include_target = false] the target is absent from every
    discovery list and, for a killer that reports the id it was asked to
    terminate, from the [Outputs] of [kill_tree_internal], while every child of
    the target in the child map is in the discovery list; when the target has
    no entry in the child map the discovery list is [[target]] with
    [include_target = true] and empty otherwise. *)
Theorem get_process_ids_to_kill_exclude_target
    (process_infos : list ProcessInfo) (filter : ProcessInfo -> bool) (target : N) :
  let m := get_child_process_id_map process_infos filter in
  (forall fuel ids,
     get_process_ids_to_kill fuel target m (mkConfig false) = Some ids ->
     ~ In target ids /\ forall c, In c (children_of m target) -> In c ids) /\
  (forall new_killer fuel attempted outputs,
     (forall killer, new_killer (mkConfig false) = Ok killer ->
        forall p ko, killer p = Ok ko -> kill_output_id ko = p) ->
     kill_tree_internal filter new_killer fuel target (mkConfig false) process_infos
       = Some (attempted, Ok outputs) ->
     forall o, In o outputs -> output_id o <> target) /\
  (m !! target = None ->
   forall inc,
     returns_ids target m (mkConfig inc) (if inc then [target] else []) /\
     forall ids, returns_ids target m (mkConfig inc) ids ->
       ids = (if inc then [target] else [])).
Proof.
  intros m. split; [|split].
  - intros fuel ids H. split.
    + intros Hin. apply (get_process_ids_to_kill_In _ _ _ _ _ target H) in Hin as [_ [Hc|Hc]];
        [discriminate | exact (Hc eq_refl)].
    + intros c Hc. apply (get_process_ids_to_kill_In _ _ _ _ _ c H). split.
      * exists 1%nat. simpl. rewrite app_nil_r. exact Hc.
      * right. intros ->. exact (target_not_own_child _ _ _ _ _ H Hc).
  - intros new_killer fuel attempted outputs Hrep Hk o Ho.
    unfold kill_tree_internal in Hk. fold m in Hk.
    destruct (get_process_ids_to_kill fuel target m (mkConfig false)) as [ids|] eqn:Hids;
      [|discriminate].
    destruct (new_killer (mkConfig false)) as [killer|e] eqn:Hnk; [|discriminate].
    injection Hk as Hk.
    destruct (kill_loop_output_ids killer (rev ids) _ _ _ _ _
                (get_process_info_map_keyed process_infos) (Hrep killer eq_refl) Hk o Ho)
      as [[]|Hin].
    apply in_rev in Hin.
    apply (get_process_ids_to_kill_In _ _ _ _ _ _ Hids) in Hin as [_ [Hc|Hc]];
      [discriminate | exact Hc].
  - intros Hnone inc.
    assert (Hrun : returns_ids target m (mkConfig inc) (if inc then [target] else [])).
    { exists 2%nat. unfold get_process_ids_to_kill. simpl. rewrite Hnone, N.eqb_refl.
      destruct inc; reflexivity. }
    split; [exact Hrun|].
    intros ids Hids. exact (returns_ids_unique _ _ _ _ _ Hids Hrun).
Qed.

(** C9: the scenario of Section 8.  With the Windows filter and target 1
    the traversal returns [[1;2;4;3]] (and nothing else for any fuel), the
    driver attempts [[3;4;2;1]], and with a Terminator for which every call
    succeeds all four processes are reported [Killed]. *)
Theorem scenario_kill_order :
  let m := get_child_process_id_map scenario Windows.child_process_id_map_filter in
  returns_ids 1 m (mkConfig true) [1; 2; 4; 3] /\
  (forall ids, returns_ids 1 m (mkConfig true) ids -> ids = [1; 2; 4; 3]) /\
  rev [1; 2; 4; 3] = [3; 4; 2; 1] /\
  kill_tree_internal Windows.child_process_id_map_filter (Windows.new_killer all_ok_os)
    10 1 (mkConfig true) scenario =
  Some ([3; 4; 2; 1],
        Ok [OKilled 3 2 "b"; OKilled 4 1 "c"; OKilled 2 1 "a"; OKilled 1 0 "init"]).
Proof.
  intros m.
  assert (Hrun : returns_ids 1 m (mkConfig true) [1; 2; 4; 3]) by (exists 10%nat; vm_compute; reflexivity).
  split; [exact Hrun|]. split; [|split; [reflexivity | vm_compute; reflexivity]].
  intros ids Hids. exact (returns_ids_unique _ _ _ _ _ Hids Hrun).
Qed.

(** ** Enumeration *)

Lemma toolhelp_loop_spec nexts : forall current end_code acc,
  Windows.toolhelp_loop current nexts end_code acc =
  (acc ++ map Windows.entry_to_info (current :: nexts),
   if Z.eqb end_code (Windows.hresult_from_win32 Windows.ERROR_NO_MORE_FILES) then None
   else Some (Windows end_code)).
Proof.
  induction nexts as [|n nexts IH]; intros current end_code acc; simpl; [reflexivity|].
  rewrite IH, <- app_assoc. reflexivity.
Qed.

Lemma windows_get_process_infos_Ok os :
  (exists infos, Windows.get_process_infos os = Ok infos) <->
  Windows.create_toolhelp32_snapshot os = CallOk tt /\
  (exists e, Windows.process32_first os = CallOk e) /\
  Windows.process32_next_end os = Windows.hresult_from_win32 Windows.ERROR_NO_MORE_FILES /\
  Windows.close_snapshot_handle os = CallOk tt.
Proof.
  destruct os as [c f nexts end_code cl]. unfold Windows.get_process_infos. simpl.
  destruct c as [[]|c]; [|split; [intros [? H]; discriminate | intros [H _]; discriminate]].
  destruct f as [e|fc]; simpl.
  - rewrite toolhelp_loop_spec.
    destruct cl as [[]|cc];
      [|split; [intros [? H]; discriminate | intros (_ & _ & _ & H); discriminate]].
    destruct (Z.eqb end_code (Windows.hresult_from_win32 Windows.ERROR_NO_MORE_FILES)) eqn:He.
    + apply Z.eqb_eq in He. split; [intros _; repeat split; eauto | intros _; eauto].
    + apply Z.eqb_neq in He. split; [intros [? H]; discriminate | intros (_ & _ & H & _); contradiction].
  - destruct cl as [[]|cc]; split; try (intros [? H]; discriminate);
      intros (_ & [e' H] & _); discriminate.
Qed.

Lemma windows_get_process_infos_entries os infos :
  Windows.get_process_infos os = Ok infos ->
  exists e, Windows.process32_first os = CallOk e /\
            infos = map Windows.entry_to_info (e :: Windows.process32_next os).
Proof.
  destruct os as [c f nexts end_code cl]. unfold Windows.get_process_infos. simpl.
  destruct c as [[]|c]; [|discriminate].
  destruct f as [e|fc]; simpl; [|destruct cl; discriminate].
  rewrite toolhelp_loop_spec. destruct cl as [[]|cc]; [|discriminate].
  destruct (Z.eqb _ _); [|discriminate]. intros H. injection H as <-. exists e. auto.
Qed.

Lemma join_loop_In os L : forall acc i,
  In i (MacOS.join_loop os L acc) <->
  In i acc \/ exists pid, In pid L /\ MacOS.join_ok os pid = true /\
                          MacOS.get_process_info os pid = Some i.
Proof.
  induction L as [|pid L IH]; intros acc i; simpl.
  - split; [tauto | intros [H|[? [[] _]]]; exact H].
  - destruct (MacOS.join_ok os pid) eqn:Hj;
      [destruct (MacOS.get_process_info os pid) as [pi|] eqn:Hg|]; rewrite IH.
    + rewrite in_app_iff. split.
      * intros [[H|[<-|[]]]|[q [Hq Hr]]]; [left; exact H | right; exists pid; auto |
          right; exists q; auto].
      * intros [H|[q [[<-|Hq] [Hj' Hg']]]]; [left; left; exact H | |right; exists q; auto].
        left. right. left. congruence.
    + split.
      * intros [H|[q [Hq Hr]]]; [left; exact H | right; exists q; auto].
      * intros [H|[q [[<-|Hq] [Hj' Hg']]]]; [left; exact H | congruence | right; exists q; auto].
    + split.
      * intros [H|[q [Hq Hr]]]; [left; exact H | right; exists q; auto].
      * intros [H|[q [[<-|Hq] [Hj' Hg']]]]; [left; exact H | congruence | right; exists q; auto].
Qed.

Lemma macos_get_process_infos_Ok os :
  (exists infos, MacOS.get_process_infos os = Ok infos) <->
  (0 < MacOS.proc_listpids_size os)%Z /\ (0 < MacOS.proc_listpids_fill os)%Z.
Proof.
  unfold MacOS.get_process_infos.
  destruct (Z.leb_spec (MacOS.proc_listpids_size os) 0) as [H1|H1].
  - split; [intros [? H]; discriminate | lia].
  - destruct (Z.ltb_spec (MacOS.proc_listpids_size os) 0) as [H2|H2]; [lia|].
    destruct (Z.leb_spec (MacOS.proc_listpids_fill os) 0) as [H3|H3].
    + split; [intros [? H]; discriminate | lia].
    + split; [intros _; lia | intros _; eexists; reflexivity].
Qed.

Lemma macos_get_process_infos_In os infos i :
  (forall l, Permutation (MacOS.join_order os l) l) ->
  MacOS.get_process_infos os = Ok infos ->
  (In i infos <->
   exists pid, In pid (MacOS.spawn_ids (MacOS.listed_pids os)) /\
               MacOS.join_ok os pid = true /\ MacOS.get_process_info os pid = Some i).
Proof.
  intros Hperm. unfold MacOS.get_process_infos.
  destruct (Z.leb (MacOS.proc_listpids_size os) 0); [discriminate|].
  destruct (Z.ltb (MacOS.proc_listpids_size os) 0); [discriminate|].
  destruct (Z.leb (MacOS.proc_listpids_fill os) 0); [discriminate|].
  intros H. injection H as <-. rewrite join_loop_In. simpl.
  split.
  - intros [[]|[pid [Hp Hr]]]. exists pid. split; [|exact Hr].
    apply (Permutation_in _ (Hperm _)). exact Hp.
  - intros [pid [Hp Hr]]. right. exists pid. split; [|exact Hr].
    apply (Permutation_in _ (symmetry (Hperm _))). exact Hp.
Qed.

(** C7 (counterexample): on Windows the initial listing call
    ([CreateToolhelp32Snapshot]) and [Process32First] succeed, yet a later
    [Process32Next] failure other than [ERROR_NO_MORE_FILES] makes the whole
    enumeration fail. *)
Lemma windows_enumeration_fails_mid_walk :
  Windows.create_toolhelp32_snapshot toolhelp_mid_failure = CallOk tt /\
  Windows.process32_first toolhelp_mid_failure = CallOk (Windows.mkPROCESSENTRY32 1 0 "init") /\
  Windows.get_process_infos toolhelp_mid_failure = Err (Windows Windows.E_ACCESSDENIED).
Proof. split; [reflexivity | split; [reflexivity | vm_compute; reflexivity]]. Qed.

(** C7 (as amended): on macOS the enumeration fails only when one of the two
    [proc_listpids] calls fails, and otherwise returns exactly the processes
    whose task joined and whose metadata lookup succeeded, dropping the
    others; on Windows, where one ToolHelp snapshot supplies every entry, the
    enumeration succeeds exactly when [CreateToolhelp32Snapshot] and
    [Process32First] succeed, the walk ends with [ERROR_NO_MORE_FILES] and
    [CloseHandle] succeeds, and then returns every entry read; any other
    failure fails the whole enumeration. *)
Theorem get_process_infos_error_behaviour
    (win : Windows.Toolhelp) (mac : MacOS.Libproc) :
  (forall l, Permutation (MacOS.join_order mac l) l) ->
  ((exists infos, MacOS.get_process_infos mac = Ok infos) <->
   (0 < MacOS.proc_listpids_size mac)%Z /\ (0 < MacOS.proc_listpids_fill mac)%Z) /\
  (forall infos, MacOS.get_process_infos mac = Ok infos ->
   forall i, In i infos <->
     exists pid, In pid (MacOS.spawn_ids (MacOS.listed_pids mac)) /\
                 MacOS.join_ok mac pid = true /\ MacOS.get_process_info mac pid = Some i) /\
  ((exists infos, Windows.get_process_infos win = Ok infos) <->
   Windows.create_toolhelp32_snapshot win = CallOk tt /\
   (exists e, Windows.process32_first win = CallOk e) /\
   Windows.process32_next_end win = Windows.hresult_from_win32 Windows.ERROR_NO_MORE_FILES /\
   Windows.close_snapshot_handle win = CallOk tt) /\
  (forall infos, Windows.get_process_infos win = Ok infos ->
   exists e, Windows.process32_first win = CallOk e /\
             infos = map Windows.entry_to_info (e :: Windows.process32_next win)).
Proof.
  intros Hperm. split; [|split; [|split]].
  - apply macos_get_process_infos_Ok.
  - intros infos H i. apply macos_get_process_infos_In; assumption.
  - apply windows_get_process_infos_Ok.
  - apply windows_get_process_infos_entries.
Qed.

(** ** Validation *)

(** C8: on Windows validation rejects ids 0 and 4 with an invalid-id error,
    accepts every other id and never reports a too-large id (Windows declares
    no maximum beyond the [u32] range of ids); on macOS, for any set of
    reserved ids of [unix.rs] that contains 0 and lies within the declared
    maximum 99998, it rejects the reserved ids (so id 0) with an invalid-id
    error, every id above 99998 with an id-too-large error carrying that
    maximum, and accepts every other id; a failed validation short-circuits
    [kill_tree] before enumeration or any termination attempt. *)
Theorem validate_process_id_short_circuits (protected : N -> option string)
    (H0 : protected 0 <> None)
    (Hle : forall p reason, protected p = Some reason -> p <= MacOS.AVAILABLE_MAX_PROCESS_ID) :
  (forall p, (p = 0 \/ p = 4) ->
     exists reason, Windows.validate_process_id p = Err (InvalidProcessId p reason)) /\
  (forall p, p <> 0 -> p <> 4 -> Windows.validate_process_id p = Ok tt) /\
  (forall p e, Windows.validate_process_id p = Err e ->
     exists reason, e = InvalidProcessId p reason) /\
  (exists reason, MacOS.validate_process_id protected 0 = Err (InvalidProcessId 0 reason)) /\
  (forall p reason, protected p = Some reason ->
     MacOS.validate_process_id protected p = Err (InvalidProcessId p reason)) /\
  (forall p, MacOS.AVAILABLE_MAX_PROCESS_ID < p ->
     MacOS.validate_process_id protected p
       = Err (ProcessIdTooLarge p MacOS.AVAILABLE_MAX_PROCESS_ID)) /\
  (forall p, protected p = None -> p <= MacOS.AVAILABLE_MAX_PROCESS_ID ->
     MacOS.validate_process_id protected p = Ok tt) /\
  MacOS.AVAILABLE_MAX_PROCESS_ID = 99998 /\
  (forall validate get_process_infos filter new_killer fuel p config e,
     validate p = Err e ->
     kill_tree validate get_process_infos filter new_killer fuel p config = Some (false, [], Err e)).
Proof.
  unfold Windows.validate_process_id, MacOS.validate_process_id, Unix.validate_process_id,
    Windows.SYSTEM_IDLE_PROCESS_PROCESS_ID, Windows.SYSTEM_PROCESS_ID.
  split; [|split; [|split; [|split; [|split; [|split; [|split; [|split]]]]]]].
  - intros p [-> | ->]; simpl; eexists; reflexivity.
  - intros p Hp0 Hp4. apply N.eqb_neq in Hp0, Hp4. rewrite Hp0, Hp4. reflexivity.
  - intros p e. destruct (N.eqb_spec p 0); [|destruct (N.eqb_spec p 4)];
      intros H; [injection H as <-; eexists; reflexivity
                | injection H as <-; eexists; reflexivity | discriminate].
  - destruct (protected 0) as [reason|] eqn:Hp; [|contradiction].
    exists reason. reflexivity.
  - intros p reason Hp. rewrite Hp. reflexivity.
  - intros p Hp. destruct (protected p) as [reason|] eqn:Hpr.
    + apply Hle in Hpr. lia.
    + destruct (N.ltb_spec MacOS.AVAILABLE_MAX_PROCESS_ID p); [reflexivity | lia].
  - intros p Hp Hmax. rewrite Hp.
    destruct (N.ltb_spec MacOS.AVAILABLE_MAX_PROCESS_ID p); [lia | reflexivity].
  - reflexivity.
  - intros validate get_process_infos filter new_killer fuel p config e H.
    unfold kill_tree. rewrite H. reflexivity.
Qed.

(** * Witnesses *)

Lemma scenario_NoDup : List.NoDup (map process_id scenario).
Proof. simpl. repeat constructor; simpl; lia. Qed.

Lemma scenario_acyclic :
  acyclic_from (get_child_process_id_map scenario Windows.child_process_id_map_filter) 1.
Proof.
  apply (acyclic_of_terminates _ _ (mkConfig true) 10 [1; 2; 4; 3]).
  vm_compute. reflexivity.
Qed.

(** C1: the scenario snapshot has distinct pids and no cycle below 1, and
    its traversal returns. *)
Lemma get_process_ids_to_kill_tree_exactly_once_witness :
  List.NoDup (map process_id scenario) /\
  acyclic_from (get_child_process_id_map scenario Windows.child_process_id_map_filter) 1 /\
  (exists ids, returns_ids 1 (get_child_process_id_map scenario Windows.child_process_id_map_filter)
                 (mkConfig true) ids).
Proof.
  split; [exact scenario_NoDup|]. split; [exact scenario_acyclic|].
  exact (proj1 (get_process_ids_to_kill_tree_exactly_once scenario
                  Windows.child_process_id_map_filter 1 scenario_NoDup scenario_acyclic)).
Defined.

(** C2: the scenario run attempts [3; 4; 2; 1]; process 3, a grandchild of
    1, is attempted before it. *)
Lemma kill_tree_internal_children_first_witness :
  List.NoDup (map process_id scenario) /\
  acyclic_from (get_child_process_id_map scenario Windows.child_process_id_map_filter) 1 /\
  kill_tree_internal Windows.child_process_id_map_filter (Windows.new_killer all_ok_os) 10 1
    (mkConfig true) scenario
    = Some ([3; 4; 2; 1], Ok [OKilled 3 2 "b"; OKilled 4 1 "c"; OKilled 2 1 "a"; OKilled 1 0 "init"]) /\
  reachable1 (get_child_process_id_map scenario Windows.child_process_id_map_filter) 1 3 /\
  (0 < 3)%nat.
Proof.
  assert (Hrun : kill_tree_internal Windows.child_process_id_map_filter
                   (Windows.new_killer all_ok_os) 10 1 (mkConfig true) scenario
    = Some ([3; 4; 2; 1], Ok [OKilled 3 2 "b"; OKilled 4 1 "c"; OKilled 2 1 "a"; OKilled 1 0 "init"]))
    by (vm_compute; reflexivity).
  assert (Hr : reachable1 (get_child_process_id_map scenario Windows.child_process_id_map_filter) 1 3)
    by (exists 1%nat; vm_compute; auto).
  split; [exact scenario_NoDup|]. split; [exact scenario_acyclic|].
  split; [exact Hrun|]. split; [exact Hr|].
  exact (kill_tree_internal_children_first Windows.child_process_id_map_filter
           (Windows.new_killer all_ok_os) 10 1 (mkConfig true) scenario _ _
           scenario_NoDup scenario_acyclic Hrun 3 0 1 3 eq_refl eq_refl Hr).
Defined.

(** C3: on [partly_failing_os] process 3 is reported as maybe already
    terminated and the attempt on 4 fails hard: the run stops after [3; 4]
    with that error. *)
Lemma kill_tree_internal_hard_failure_aborts_witness :
  get_process_ids_to_kill 10 1 (get_child_process_id_map scenario Windows.child_process_id_map_filter)
    (mkConfig true) = Some [1; 2; 4; 3] /\
  Windows.new_killer partly_failing_os (mkConfig true) = Ok (Windows.kill partly_failing_os) /\
  Windows.kill partly_failing_os 3 = Ok (KOMaybeAlreadyTerminated 3 (Windows Windows.E_ACCESSDENIED)) /\
  kill_tree_internal Windows.child_process_id_map_filter (Windows.new_killer partly_failing_os) 10 1
    (mkConfig true) scenario = Some ([3; 4], Err (Windows 5)).
Proof.
  assert (Hids : get_process_ids_to_kill 10 1
                   (get_child_process_id_map scenario Windows.child_process_id_map_filter)
                   (mkConfig true) = Some [1; 2; 4; 3]) by (vm_compute; reflexivity).
  assert (Hk : Windows.new_killer partly_failing_os (mkConfig true)
               = Ok (Windows.kill partly_failing_os)) by reflexivity.
  split; [exact Hids|]. split; [exact Hk|]. split; [vm_compute; reflexivity|].
  refine (proj1 (kill_tree_internal_hard_failure_aborts Windows.child_process_id_map_filter
            (Windows.new_killer partly_failing_os) 10 1 (mkConfig true) scenario
            [1; 2; 4; 3] (Windows.kill partly_failing_os) Hids Hk) [3] 4 [2; 1] (Windows 5)
            eq_refl _ _).
  - intros y [<- | []]. eexists. vm_compute. reflexivity.
  - vm_compute. reflexivity.
Defined.

(** C7: libproc's identity join order is a permutation; the macOS
    enumeration of [libproc_lookup_failure] succeeds although one lookup
    fails, and the Windows walk of [toolhelp_mid_failure] fails. *)
Lemma get_process_infos_error_behaviour_witness :
  (forall l, Permutation (MacOS.join_order libproc_lookup_failure l) l) /\
  (exists infos, MacOS.get_process_infos libproc_lookup_failure = Ok infos) /\
  ~ (exists infos, Windows.get_process_infos toolhelp_mid_failure = Ok infos).
Proof.
  assert (Hperm : forall l, Permutation (MacOS.join_order libproc_lookup_failure l) l)
    by (intros l; reflexivity).
  destruct (get_process_infos_error_behaviour toolhelp_mid_failure libproc_lookup_failure Hperm)
    as (Hmac & _ & Hwin & _).
  split; [exact Hperm|]. split.
  - apply Hmac. simpl. lia.
  - rewrite Hwin. intros (_ & _ & H & _). vm_compute in H. discriminate.
Defined.

(** C8: with id 0 as the only reserved id of [unix.rs], id 99999 is too
    large on macOS and id 1 is accepted. *)
Lemma validate_process_id_short_circuits_witness :
  (fun p => if N.eqb p 0 then Some "Not allowed to kill kernel process"%string else None) 0 <> None /\
  (forall p reason,
     (fun p => if N.eqb p 0 then Some "Not allowed to kill kernel process"%string else None) p
       = Some reason -> p <= MacOS.AVAILABLE_MAX_PROCESS_ID) /\
  MacOS.validate_process_id
    (fun p => if N.eqb p 0 then Some "Not allowed to kill kernel process"%string else None) 99999
    = Err (ProcessIdTooLarge 99999 99998) /\
  MacOS.validate_process_id
    (fun p => if N.eqb p 0 then Some "Not allowed to kill kernel process"%string else None) 1
    = Ok tt.
Proof.
  assert (H0 : (fun p => if N.eqb p 0 then Some "Not allowed to kill kernel process"%string
                         else None) 0 <> None) by discriminate.
  assert (Hle : forall p reason,
            (fun p => if N.eqb p 0 then Some "Not allowed to kill kernel process"%string else None) p
              = Some reason -> p <= MacOS.AVAILABLE_MAX_PROCESS_ID).
  { intros p reason. simpl. destruct (N.eqb_spec p 0) as [->|_]; [intros _; vm_compute; discriminate
                                                                 | discriminate]. }
  destruct (validate_process_id_short_circuits _ H0 Hle)
    as (_ & _ & _ & _ & _ & Hlarge & Hok & _).
  split; [exact H0|]. split; [exact Hle|]. split.
  - exact (Hlarge 99999 ltac:(vm_compute; reflexivity)).
  - exact (Hok 1 eq_refl ltac:(vm_compute; discriminate)).
Defined.

(** * Further properties of the code *)

(** ** Info map ([get_process_info_map]) *)

Lemma info_map_fold_lookup l : forall (m0 : ProcessInfoMap) k,
  foldl (fun map process_info => <[process_id process_info := process_info]> map) m0 l !! k =
  match last (List.filter (fun i => N.eqb (process_id i) k) l) with
  | Some i => Some i
  | None => m0 !! k
  end.
Proof.
  induction l as [|a l IH]; intros m0 k; simpl; [reflexivity|].
  rewrite IH. destruct (N.eqb_spec (process_id a) k) as [<-|Hne].
  - rewrite last_cons. destruct (last _); [reflexivity|]. simplify_map_eq. reflexivity.
  - destruct (last _); [reflexivity|]. rewrite lookup_insert_ne; auto.
Qed.

(** X1: the info map holds, for each id, the last snapshot entry with that
    id, and nothing for an id absent from the snapshot. *)
Theorem get_process_info_map_lookup process_infos k :
  get_process_info_map process_infos !! k =
  last (List.filter (fun i => N.eqb (process_id i) k) process_infos).
Proof.
  unfold get_process_info_map. rewrite info_map_fold_lookup, lookup_empty.
  destruct (last _); reflexivity.
Qed.

(** ** Child map ([get_child_process_id_map]) *)

Lemma child_map_lookup process_infos filter p :
  get_child_process_id_map process_infos filter !! p =
  match pushed_children filter p process_infos with
  | [] => None
  | l => Some (sort_unstable l)
  end.
Proof.
  unfold get_child_process_id_map. rewrite lookup_fmap, group_fold_lookup, lookup_empty.
  destruct (pushed_children filter p process_infos); reflexivity.
Qed.

(** X2: the child map has a key exactly for the parents named by some
    unfiltered entry, and never holds an empty children list. *)
Theorem get_child_process_id_map_keys process_infos filter p :
  (get_child_process_id_map process_infos filter !! p = None <->
   forall i, In i process_infos -> filter i = true \/ parent_process_id i <> p) /\
  (forall l, get_child_process_id_map process_infos filter !! p = Some l -> l <> []).
Proof.
  rewrite child_map_lookup.
  destruct (pushed_children filter p process_infos) as [|n l] eqn:Hp.
  - split; [|discriminate]. split; [|reflexivity]. intros _ i Hi.
    destruct (filter i) eqn:Hf; [left; reflexivity|right; intros Hpi].
    assert (Hin : In (process_id i) (pushed_children filter p process_infos))
      by (apply in_pushed_children; eauto).
    rewrite Hp in Hin. destruct Hin.
  - split.
    + split; [discriminate|]. intros Hall.
      assert (Hin : In n (pushed_children filter p process_infos)) by (rewrite Hp; left; reflexivity).
      apply in_pushed_children in Hin as (i & Hi & Hf & Hpi & _).
      destruct (Hall i Hi) as [H|H]; congruence.
    + intros l' H Hnil. injection H as <-.
      pose proof (merge_sort_Permutation (≤)%N (n :: l)) as Hperm.
      unfold sort_unstable in Hnil. rewrite Hnil in Hperm.
      apply Permutation_nil in Hperm. discriminate.
Qed.

Lemma Permutation_list_filter {A} (f : A -> bool) l1 l2 :
  Permutation l1 l2 -> Permutation (List.filter f l1) (List.filter f l2).
Proof.
  induction 1 as [|x l1 l2 _ IH|x y l|l1 l2 l3 _ IH1 _ IH2]; simpl.
  - constructor.
  - destruct (f x); [constructor|]; exact IH.
  - destruct (f x), (f y); try constructor; reflexivity.
  - etransitivity; eassumption.
Qed.

Lemma sort_unstable_Permutation l1 l2 :
  Permutation l1 l2 -> sort_unstable l1 = sort_unstable l2.
Proof.
  intros H. unfold sort_unstable.
  assert (Htot : Total N.le) by (intros x y; lia).
  apply (Sorted_unique N.le).
  - apply Sorted_merge_sort. exact Htot.
  - apply Sorted_merge_sort. exact Htot.
  - rewrite !merge_sort_Permutation. exact H.
Qed.

(** X3: the child map does not depend on the order of the snapshot entries. *)
Theorem get_child_process_id_map_order_independent process_infos1 process_infos2 filter :
  Permutation process_infos1 process_infos2 ->
  get_child_process_id_map process_infos1 filter = get_child_process_id_map process_infos2 filter.
Proof.
  intros H. apply map_eq. intros p. rewrite !child_map_lookup.
  assert (Hp : Permutation (pushed_children filter p process_infos1)
                           (pushed_children filter p process_infos2))
    by (apply Permutation_map, Permutation_list_filter, H).
  destruct (pushed_children filter p process_infos1) as [|a l1] eqn:H1,
           (pushed_children filter p process_infos2) as [|b l2] eqn:H2.
  - reflexivity.
  - apply Permutation_nil in Hp. discriminate.
  - symmetry in Hp. apply Permutation_nil in Hp. discriminate.
  - f_equal. apply sort_unstable_Permutation. exact Hp.
Qed.

(** ** Traversal with and without the target *)

Lemma flat_map_keep_other t c L :
  ~ In t L -> flat_map (keep t c) L = L.
Proof.
  induction L as [|x L IH]; intros Hn; [reflexivity|]. simpl.
  unfold keep at 1. destruct (N.eqb_spec x t) as [->|_].
  - exfalso. apply Hn. left. reflexivity.
  - rewrite IH; [reflexivity|]. intros H. apply Hn. right. exact H.
Qed.

(** X4: a returning traversal with [include_target = true] lists the target
    first, followed by exactly what the traversal with
    [include_target = false] returns. *)
Theorem get_process_ids_to_kill_include_target_head target m fuel ids :
  get_process_ids_to_kill fuel target m (mkConfig true) = Some ids ->
  exists ids', returns_ids target m (mkConfig false) ids' /\ ids = target :: ids'.
Proof.
  intros H.
  pose proof (acyclic_of_terminates m target (mkConfig true) fuel ids H) as Hac.
  destruct (get_process_ids_to_kill_spec m target (mkConfig true) fuel ids H) as [D [HD ->]].
  destruct D as [|d]; [discriminate|].
  destruct (levels_upto_split m target 0 (S d)) as [R [HR HRin]]; [lia|].
  assert (HnR : ~ In target R).
  { intros Hin. destruct (HRin target Hin) as [c [Hc Hl]].
    destruct c as [|c]; [lia|].
    apply (Hac target); [exists 0%nat; left; reflexivity | exists c; exact Hl]. }
  exists (flat_map (keep target (mkConfig false)) (levels_upto m target (S d))).
  split.
  - exists (length (levels_upto m target (S d)) + 1)%nat.
    apply get_process_ids_to_kill_levels. exact HD.
  - rewrite HR. simpl. unfold keep at 1 3. rewrite N.eqb_refl. simpl.
    rewrite (flat_map_keep_other target (mkConfig false)) by exact HnR.
    rewrite (flat_map_keep_true target (mkConfig true)) by reflexivity.
    reflexivity.
Qed.

(** ** Enrichment of [Killed] outputs *)

Lemma keyed_by_id_delete map k : keyed_by_id map -> keyed_by_id (delete k map).
Proof.
  intros Hk k' info H. apply lookup_delete_Some in H as [_ H]. exact (Hk _ _ H).
Qed.

Lemma kill_loop_killed_from_map killer L : forall map outputs attempted attempted' outputs',
  keyed_by_id map ->
  kill_loop killer L map outputs attempted = (attempted', Ok outputs') ->
  forall p pp n, In (OKilled p pp n) outputs' ->
    In (OKilled p pp n) outputs \/ map !! p = Some (mkProcessInfo p pp n).
Proof.
  induction L as [|x L IH]; intros map outputs attempted attempted' outputs' Hk Hrun p pp n Hin;
    simpl in Hrun.
  - injection Hrun as _ <-. left. exact Hin.
  - destruct (killer x) as [ko|e]; [|discriminate].
    destruct ko as [id|id source]; simpl in Hrun.
    + destruct (map !! id) as [info|] eqn:Hm.
      * destruct (IH _ _ _ _ _ (keyed_by_id_delete map id Hk) Hrun p pp n Hin) as [H|H].
        -- apply in_app_or in H as [H|[H|[]]]; [left; exact H|].
           right. injection H as Hp Hpp Hn. pose proof (Hk _ _ Hm) as Hid.
           subst. destruct info; exact Hm.
        -- apply lookup_delete_Some in H as [_ H]. right. exact H.
      * exact (IH _ _ _ _ _ Hk Hrun p pp n Hin).
    + destruct (IH _ _ _ _ _ Hk Hrun p pp n Hin) as [H|H]; [|right; exact H].
      apply in_app_or in H as [H|[H|[]]]; [left; exact H | discriminate].
Qed.

(** X5: every [Killed] output of [kill_tree_internal] reports the parent id
    and name of the last snapshot entry with that process id. *)
Theorem kill_tree_internal_killed_from_snapshot filter new_killer fuel target config
    process_infos attempted outputs :
  kill_tree_internal filter new_killer fuel target config process_infos
    = Some (attempted, Ok outputs) ->
  forall p pp n, In (OKilled p pp n) outputs ->
    last (List.filter (fun i => N.eqb (process_id i) p) process_infos)
      = Some (mkProcessInfo p pp n).
Proof.
  unfold kill_tree_internal.
  destruct (get_process_ids_to_kill _ _ _ _) as [ids|]; [|discriminate].
  destruct (new_killer config) as [killer|e]; [|discriminate].
  intros H p pp n Hin. injection H as H.
  destruct (kill_loop_killed_from_map killer (rev ids) _ [] [] _ _
              (get_process_info_map_keyed process_infos) H p pp n Hin) as [[]|Hm].
  unfold get_process_info_map in Hm. rewrite info_map_fold_lookup, lookup_empty in Hm.
  destruct (last _); [exact Hm | discriminate].
Qed.

(** ** Windows termination ([blocking::kill]) *)

Lemma windows_kill_output_id os p ko :
  Windows.kill os p = Ok ko -> kill_output_id ko = p.
Proof.
  unfold Windows.kill.
  destruct (Windows.open_process os p) as [[]|c].
  - destruct (Windows.terminate_process os p) as [[]|c'];
      destruct (Windows.close_process_handle os p) as [[]|c''];
      try (intros H; discriminate H).
    + intros H. injection H as <-. reflexivity.
    + destruct (Z.eqb c' Windows.E_ACCESSDENIED); intros H; [injection H as <-; reflexivity | discriminate].
  - destruct (Z.eqb c Windows.E_INVALIDARG); intros H; [injection H as <-; reflexivity | discriminate].
Qed.

(** X6: [kill] reports only the id it was given; it reports [Killed] exactly
    when [OpenProcess], [TerminateProcess] and [CloseHandle] all succeed; a
    failing [CloseHandle] on an opened handle is an error whatever
    [TerminateProcess] did; and it reports "maybe already terminated" exactly
    for an [E_INVALIDARG] from [OpenProcess] or an [E_ACCESSDENIED] from
    [TerminateProcess] followed by a successful [CloseHandle], carrying that
    error. *)
Theorem windows_kill_outcomes os p :
  (forall ko, Windows.kill os p = Ok ko -> kill_output_id ko = p) /\
  (Windows.kill os p = Ok (KOKilled p) <->
   Windows.open_process os p = CallOk tt /\ Windows.terminate_process os p = CallOk tt /\
   Windows.close_process_handle os p = CallOk tt) /\
  (forall c, Windows.open_process os p = CallOk tt ->
     Windows.close_process_handle os p = CallErr c -> Windows.kill os p = Err (Windows c)) /\
  (forall source, Windows.kill os p = Ok (KOMaybeAlreadyTerminated p source) <->
     (Windows.open_process os p = CallErr Windows.E_INVALIDARG /\
      source = Windows Windows.E_INVALIDARG) \/
     (Windows.open_process os p = CallOk tt /\
      Windows.terminate_process os p = CallErr Windows.E_ACCESSDENIED /\
      Windows.close_process_handle os p = CallOk tt /\ source = Windows Windows.E_ACCESSDENIED)).
Proof.
  split; [intros ko; apply windows_kill_output_id|].
  unfold Windows.kill.
  destruct (Windows.open_process os p) as [[]|c];
    [destruct (Windows.terminate_process os p) as [[]|c'];
     destruct (Windows.close_process_handle os p) as [[]|c'']|];
    [| | destruct (Z.eqb_spec c' Windows.E_ACCESSDENIED) as [->|Hc]
     | destruct (Z.eqb c' Windows.E_ACCESSDENIED)
     | destruct (Z.eqb_spec c Windows.E_INVALIDARG) as [->|Hc]];
    (split; [|split; [|intros source]]; [split | | split]; firstorder congruence).
Qed.

(** ** macOS process lookup and enumeration *)

Lemma macos_get_process_info_eq os p :
  MacOS.get_process_info os p =
  if (Z.of_N p <? 2 ^ 31)%Z then
    let '(r, (pbi_ppid, pbi_name)) := MacOS.proc_pidinfo os (Z.of_N p) in
    if (r <=? 0)%Z then None else Some (mkProcessInfo p pbi_ppid pbi_name)
  else None.
Proof.
  unfold MacOS.get_process_info.
  replace (u32_try_from MacOS.proc_bsdinfo_size) with (Some 136) by reflexivity.
  replace (i32_try_from (Z.of_N 136)) with (Some 136%Z) by reflexivity.
  replace (i32_try_from MacOS.PROC_PIDTBSDINFO) with (Some 3%Z) by reflexivity.
  unfold i32_try_from.
  replace ((- 2 ^ 31 <=? Z.of_N p)%Z) with true by (symmetry; apply Z.leb_le; lia).
  simpl andb. destruct (Z.of_N p <? 2 ^ 31)%Z; reflexivity.
Qed.

(** X7: the macOS lookup of one process fails for every id that does not fit
    in [i32] and whenever [proc_pidinfo] returns a non-positive value; on
    success it reports the requested id with the parent id and name that
    [proc_pidinfo] filled in. *)
Theorem macos_get_process_info_result os p i :
  (2 ^ 31 <= p -> MacOS.get_process_info os p = None) /\
  (MacOS.get_process_info os p = Some i <->
   p < 2 ^ 31 /\ (0 < fst (MacOS.proc_pidinfo os (Z.of_N p)))%Z /\
   i = mkProcessInfo p (fst (snd (MacOS.proc_pidinfo os (Z.of_N p))))
                       (snd (snd (MacOS.proc_pidinfo os (Z.of_N p))))).
Proof.
  rewrite macos_get_process_info_eq.
  destruct (Z.ltb_spec (Z.of_N p) (2 ^ 31)) as [Hp|Hp].
  - split; [lia|].
    destruct (MacOS.proc_pidinfo os (Z.of_N p)) as [r [pp n]]. simpl.
    destruct (Z.leb_spec r 0) as [Hr|Hr].
    + split; [discriminate | lia].
    + split; [intros H; injection H as <-; split; [lia | auto] | intros (_ & _ & ->); reflexivity].
  - split; [reflexivity|]. split; [discriminate | lia].
Qed.

Lemma macos_get_process_info_id os p i :
  MacOS.get_process_info os p = Some i -> process_id i = p.
Proof.
  rewrite macos_get_process_info_eq.
  destruct (Z.of_N p <? 2 ^ 31)%Z; [|discriminate].
  destruct (MacOS.proc_pidinfo os (Z.of_N p)) as [r [pp n]].
  destruct (r <=? 0)%Z; [discriminate|]. intros H. injection H as <-. reflexivity.
Qed.

Lemma join_loop_ids os L : forall acc,
  map process_id (MacOS.join_loop os L acc) =
  map process_id acc ++
  List.filter (fun p => MacOS.join_ok os p &&
                        match MacOS.get_process_info os p with Some _ => true | None => false end) L.
Proof.
  induction L as [|p L IH]; intros acc; simpl; [rewrite app_nil_r; reflexivity|].
  destruct (MacOS.join_ok os p); simpl; [|apply IH].
  destruct (MacOS.get_process_info os p) as [i|] eqn:Hg; simpl; rewrite IH; [|reflexivity].
  rewrite map_app, <- app_assoc. simpl. rewrite (macos_get_process_info_id _ _ _ Hg). reflexivity.
Qed.

Lemma u32_try_from_Some z n : u32_try_from z = Some n -> z = Z.of_N n.
Proof.
  unfold u32_try_from. destruct ((0 <=? z)%Z && (z <? 2 ^ 32)%Z) eqn:H; [|discriminate].
  apply andb_true_iff in H as [H _]. apply Z.leb_le in H.
  intros E. injection E as <-. rewrite Z2N.id; lia.
Qed.

Lemma u32_try_from_of_N p : p < 2 ^ 32 -> u32_try_from (Z.of_N p) = Some p.
Proof.
  intros Hp. unfold u32_try_from.
  replace ((0 <=? Z.of_N p)%Z) with true by (symmetry; apply Z.leb_le; lia).
  replace ((Z.of_N p <? 2 ^ 32)%Z) with true by (symmetry; apply Z.ltb_lt; lia).
  simpl. rewrite N2Z.id. reflexivity.
Qed.

Lemma count_occ_list_filter (f : N -> bool) l x :
  count_occ N.eq_dec (List.filter f l) x = if f x then count_occ N.eq_dec l x else 0%nat.
Proof.
  induction l as [|y l IH]; simpl; [destruct (f x); reflexivity|].
  destruct (f y) eqn:Hy; simpl; rewrite IH;
    destruct (N.eq_dec y x) as [->|Hne]; rewrite ?Hy; try reflexivity.
Qed.

Lemma count_occ_spawn_ids l p :
  p < 2 ^ 32 -> count_occ N.eq_dec (MacOS.spawn_ids l) p = count_occ Z.eq_dec l (Z.of_N p).
Proof.
  intros Hp. induction l as [|z l IH]; simpl; [reflexivity|].
  destruct (u32_try_from z) as [n|] eqn:Hz.
  - pose proof (u32_try_from_Some _ _ Hz) as ->. simpl. rewrite IH.
    destruct (N.eq_dec n p) as [Hnp|Hne]; destruct (Z.eq_dec (Z.of_N n) (Z.of_N p)) as [He|He];
      try reflexivity; [subst n; contradiction | apply N2Z.inj in He; contradiction].
  - rewrite IH. destruct (Z.eq_dec z (Z.of_N p)) as [->|_]; [|reflexivity].
    rewrite u32_try_from_of_N in Hz by exact Hp. discriminate.
Qed.

(** X8: the macOS enumeration does not remove duplicates: when the [JoinSet]
    yields every spawned task once, each occurrence of a pid in the buffer it
    walks gives one record of that pid if the task joins and the lookup
    succeeds, and none otherwise; so the zero entries of the unfilled buffer
    tail each give a record of pid 0 when that lookup succeeds. *)
Theorem macos_get_process_infos_count os process_infos p :
  (forall l, Permutation (MacOS.join_order os l) l) ->
  MacOS.get_process_infos os = Ok process_infos ->
  count_occ N.eq_dec (map process_id process_infos) p =
  if MacOS.join_ok os p &&
     match MacOS.get_process_info os p with Some _ => true | None => false end
  then count_occ Z.eq_dec (MacOS.listed_pids os) (Z.of_N p) else 0%nat.
Proof.
  intros Hperm. unfold MacOS.get_process_infos.
  destruct (Z.leb (MacOS.proc_listpids_size os) 0); [discriminate|].
  destruct (Z.ltb (MacOS.proc_listpids_size os) 0); [discriminate|].
  destruct (Z.leb (MacOS.proc_listpids_fill os) 0); [discriminate|].
  intros H. injection H as <-. rewrite join_loop_ids. simpl.
  rewrite count_occ_list_filter.
  destruct (MacOS.join_ok os p) eqn:Hj; [|reflexivity].
  destruct (MacOS.get_process_info os p) as [i|] eqn:Hg; [|reflexivity]. simpl.
  assert (Hp : p < 2 ^ 32).
  { rewrite macos_get_process_info_eq in Hg.
    destruct (Z.ltb_spec (Z.of_N p) (2 ^ 31)) as [Hlt|]; [lia | discriminate]. }
  rewrite <- (count_occ_spawn_ids _ _ Hp).
  apply (proj1 (Permutation_count_occ N.eq_dec _ _) (Hperm _)).
Qed.





(** ** Order of the outputs *)

Lemma kill_loop_order killer L : forall info_map outputs attempted attempted' outputs',
  keyed_by_id info_map ->
  (forall p ko, killer p = Ok ko -> kill_output_id ko = p) ->
  kill_loop killer L info_map outputs attempted = (attempted', Ok outputs') ->
  attempted' = attempted ++ L /\
  exists S, map output_id outputs' = map output_id outputs ++ S /\ sublist S L.
Proof.
  induction L as [|x L IH]; intros info_map outputs attempted attempted' outputs' Hk Hown Hrun;
    simpl in Hrun.
  - injection Hrun as <- <-. split; [rewrite app_nil_r; reflexivity|].
    exists []. split; [rewrite app_nil_r; reflexivity | constructor].
  - destruct (killer x) as [ko|e] eqn:Hkx; [|discriminate].
    pose proof (Hown x ko Hkx) as Hid.
    destruct ko as [id|id source]; simpl in Hid; subst id; simpl in Hrun.
    + destruct (info_map !! x) as [info|] eqn:Hm.
      * destruct (IH _ _ _ _ _ (keyed_by_id_delete info_map x Hk) Hown Hrun) as [Ha [S [HS Hsub]]].
        split; [rewrite Ha, <- app_assoc; reflexivity|].
        exists (x :: S). split; [|apply sublist_skip, Hsub].
        rewrite HS, map_app, <- app_assoc. simpl. rewrite (Hk _ _ Hm). reflexivity.
      * destruct (IH _ _ _ _ _ Hk Hown Hrun) as [Ha [S [HS Hsub]]].
        split; [rewrite Ha, <- app_assoc; reflexivity|].
        exists S. split; [exact HS | apply sublist_cons, Hsub].
    + destruct (IH _ _ _ _ _ Hk Hown Hrun) as [Ha [S [HS Hsub]]].
      split; [rewrite Ha, <- app_assoc; reflexivity|].
      exists (x :: S). split; [|apply sublist_skip, Hsub].
      rewrite HS, map_app, <- app_assoc. reflexivity.
Qed.

(** X9: with a Terminator that reports the id it was asked about, the
    outputs of a successful [kill_tree_internal] name the attempted ids in
    the order of the attempts, each at most once per attempt. *)
Theorem kill_tree_internal_outputs_in_attempt_order filter new_killer fuel target config
    process_infos attempted outputs :
  (forall killer, new_killer config = Ok killer ->
     forall p ko, killer p = Ok ko -> kill_output_id ko = p) ->
  kill_tree_internal filter new_killer fuel target config process_infos
    = Some (attempted, Ok outputs) ->
  sublist (map output_id outputs) attempted.
Proof.
  intros Hown. unfold kill_tree_internal.
  destruct (get_process_ids_to_kill _ _ _ _) as [ids|]; [|discriminate].
  destruct (new_killer config) as [killer|e] eqn:Hnk; [|discriminate].
  intros H. injection H as H.
  destruct (kill_loop_order killer (rev ids) _ [] [] _ _
              (get_process_info_map_keyed process_infos) (Hown killer eq_refl) H)
    as [-> [S [HS Hsub]]].
  simpl in HS. rewrite HS. exact Hsub.
Qed.

(** ** Killer construction failure *)

(** X10: when [new_killer] fails and the traversal terminates (no cycle is
    reachable from the target), [kill_tree_internal] returns that error
    without attempting any termination; on a snapshot with such a cycle it
    never reaches [new_killer]. *)
Theorem kill_tree_internal_new_killer_failure filter new_killer target config
    process_infos e :
  new_killer config = Err e ->
  (acyclic_from (get_child_process_id_map process_infos filter) target <->
   exists fuel, kill_tree_internal filter new_killer fuel target config process_infos
                  = Some ([], Err e)).
Proof.
  intros He. unfold kill_tree_internal. split.
  - intros Hac.
    destruct (bfs_terminates_of_acyclic _ target config Hac) as [fuel [ids Hids]].
    exists fuel. rewrite Hids, He. reflexivity.
  - intros [fuel H].
    destruct (get_process_ids_to_kill fuel target _ config) as [ids|] eqn:Hids; [|discriminate].
    exact (acyclic_of_terminates _ _ _ _ _ Hids).
Qed.

(** ** Enumeration errors *)

(** X11: the enumeration only fails with an OS error.  On Windows it is the
    code of the failing call: [CreateToolhelp32Snapshot]; otherwise
    [CloseHandle] on the snapshot, which takes precedence over a walk error;
    otherwise [Process32First]; otherwise the [Process32Next] call that ended
    the walk with a code other than [ERROR_NO_MORE_FILES].  On macOS it is
    [errno].  The conversion failures the code guards against ([InvalidCast]
    for the [PROCESSENTRY32] size, the [usize] conversion of the buffer size)
    never occur. *)
Theorem get_process_infos_errors_are_os_errors (win : Windows.Toolhelp) (mac : MacOS.Libproc) :
  (forall e, Windows.get_process_infos win = Err e ->
   exists c, e = Windows c /\
     (Windows.create_toolhelp32_snapshot win = CallErr c \/
      (Windows.create_toolhelp32_snapshot win = CallOk tt /\
       (Windows.close_snapshot_handle win = CallErr c \/
        (Windows.close_snapshot_handle win = CallOk tt /\
         (Windows.process32_first win = CallErr c \/
          ((exists en, Windows.process32_first win = CallOk en) /\
           c = Windows.process32_next_end win /\
           c <> Windows.hresult_from_win32 Windows.ERROR_NO_MORE_FILES))))))) /\
  (forall e, MacOS.get_process_infos mac = Err e -> e = Io (MacOS.errno mac)).
Proof.
  split.
  - intros e. destruct win as [c f nexts end_code cl]. unfold Windows.get_process_infos. simpl.
    destruct c as [[]|c]; [|intros H; injection H as <-; exists c; auto].
    destruct f as [en|fc]; simpl.
    + rewrite toolhelp_loop_spec. destruct cl as [[]|cc].
      * destruct (Z.eqb_spec end_code (Windows.hresult_from_win32 Windows.ERROR_NO_MORE_FILES))
          as [_|Hne]; intros H; [discriminate|].
        injection H as <-. exists end_code. split; [reflexivity|].
        right. split; [reflexivity|]. right. split; [reflexivity|]. right. eauto.
      * intros H; injection H as <-. exists cc. split; [reflexivity|]. right. auto.
    + destruct cl as [[]|cc]; intros H; injection H as <-.
      * exists fc. split; [reflexivity|]. right. split; [reflexivity|]. right. auto.
      * exists cc. split; [reflexivity|]. right. auto.
  - intros e. unfold MacOS.get_process_infos.
    destruct (Z.leb_spec (MacOS.proc_listpids_size mac) 0) as [Hs|Hs];
      [intros H; injection H as <-; reflexivity|].
    destruct (Z.ltb_spec (MacOS.proc_listpids_size mac) 0) as [Hn|Hn]; [lia|].
    destruct (Z.leb (MacOS.proc_listpids_fill mac) 0);
      [intros H; injection H as <-; reflexivity | discriminate].
Qed.

(** * Witnesses of the further properties *)

(** X3: the scenario snapshot and its reverse give the same child map. *)
Lemma get_child_process_id_map_order_independent_witness :
  Permutation scenario (rev scenario) /\
  get_child_process_id_map scenario Windows.child_process_id_map_filter =
  get_child_process_id_map (rev scenario) Windows.child_process_id_map_filter.
Proof.
  assert (Hp : Permutation scenario (rev scenario)) by apply Permutation_rev.
  split; [exact Hp|].
  exact (get_child_process_id_map_order_independent scenario (rev scenario) _ Hp).
Defined.

(** X4: the scenario traversal with the target is [1] followed by the one
    without it. *)
Lemma get_process_ids_to_kill_include_target_head_witness :
  get_process_ids_to_kill 10 1 (get_child_process_id_map scenario Windows.child_process_id_map_filter)
    (mkConfig true) = Some [1; 2; 4; 3] /\
  exists ids', returns_ids 1 (get_child_process_id_map scenario Windows.child_process_id_map_filter)
                 (mkConfig false) ids' /\ [1; 2; 4; 3] = 1 :: ids'.
Proof.
  assert (H : get_process_ids_to_kill 10 1
                (get_child_process_id_map scenario Windows.child_process_id_map_filter)
                (mkConfig true) = Some [1; 2; 4; 3]) by (vm_compute; reflexivity).
  split; [exact H|]. exact (get_process_ids_to_kill_include_target_head _ _ _ _ H).
Defined.

(** X5: the scenario run reports process 3 with the snapshot's parent 2 and
    name "b". *)
Lemma kill_tree_internal_killed_from_snapshot_witness :
  kill_tree_internal Windows.child_process_id_map_filter (Windows.new_killer all_ok_os) 10 1
    (mkConfig true) scenario
    = Some ([3; 4; 2; 1], Ok [OKilled 3 2 "b"; OKilled 4 1 "c"; OKilled 2 1 "a"; OKilled 1 0 "init"]) /\
  last (List.filter (fun i => N.eqb (process_id i) 3) scenario) = Some (mkProcessInfo 3 2 "b").
Proof.
  assert (Hrun : kill_tree_internal Windows.child_process_id_map_filter
                   (Windows.new_killer all_ok_os) 10 1 (mkConfig true) scenario
    = Some ([3; 4; 2; 1], Ok [OKilled 3 2 "b"; OKilled 4 1 "c"; OKilled 2 1 "a"; OKilled 1 0 "init"]))
    by (vm_compute; reflexivity).
  split; [exact Hrun|].
  exact (kill_tree_internal_killed_from_snapshot _ _ _ _ _ _ _ _ Hrun 3 2 "b" (or_introl eq_refl)).
Defined.


(** X9: the scenario run with the Windows killer. *)
Lemma kill_tree_internal_outputs_in_attempt_order_witness :
  (forall killer, Windows.new_killer all_ok_os (mkConfig true) = Ok killer ->
     forall p ko, killer p = Ok ko -> kill_output_id ko = p) /\
  kill_tree_internal Windows.child_process_id_map_filter (Windows.new_killer all_ok_os) 10 1
    (mkConfig true) scenario
    = Some ([3; 4; 2; 1], Ok [OKilled 3 2 "b"; OKilled 4 1 "c"; OKilled 2 1 "a"; OKilled 1 0 "init"]) /\
  sublist [3; 4; 2; 1] [3; 4; 2; 1].
Proof.
  assert (Hown : forall killer, Windows.new_killer all_ok_os (mkConfig true) = Ok killer ->
            forall p ko, killer p = Ok ko -> kill_output_id ko = p).
  { intros killer H. injection H as <-. intros p ko. apply windows_kill_output_id. }
  assert (Hrun : kill_tree_internal Windows.child_process_id_map_filter
                   (Windows.new_killer all_ok_os) 10 1 (mkConfig true) scenario
    = Some ([3; 4; 2; 1], Ok [OKilled 3 2 "b"; OKilled 4 1 "c"; OKilled 2 1 "a"; OKilled 1 0 "init"]))
    by (vm_compute; reflexivity).
  split; [exact Hown|]. split; [exact Hrun|].
  exact (kill_tree_internal_outputs_in_attempt_order _ _ _ _ _ _ _ _ Hown Hrun).
Defined.

(** X10: on the scenario, a killer that cannot be created stops the run
    before any termination. *)
Lemma kill_tree_internal_new_killer_failure_witness :
  (fun _ : Config => @Err Killer (Windows 5%Z)) (mkConfig true) = Err (Windows 5%Z) /\
  exists fuel, kill_tree_internal Windows.child_process_id_map_filter
                 (fun _ => Err (Windows 5%Z)) fuel 1 (mkConfig true) scenario
               = Some ([], Err (Windows 5%Z)).
Proof.
  split; [reflexivity|].
  exact (proj1 (kill_tree_internal_new_killer_failure Windows.child_process_id_map_filter
                  (fun _ => Err (Windows 5%Z)) 1 (mkConfig true) scenario (Windows 5%Z) eq_refl)
               scenario_acyclic).
Defined.

(** X8: the zero-tailed buffer [1; 2; 0; 0] gives two records of pid 0. *)
Lemma macos_get_process_infos_count_witness :
  (forall l, Permutation (MacOS.join_order libproc_zero_tail l) l) /\
  MacOS.get_process_infos libproc_zero_tail
    = Ok [mkProcessInfo 1 0 "p"; mkProcessInfo 2 0 "p"; mkProcessInfo 0 0 "p";
          mkProcessInfo 0 0 "p"] /\
  count_occ N.eq_dec (map process_id [mkProcessInfo 1 0 "p"; mkProcessInfo 2 0 "p";
                                      mkProcessInfo 0 0 "p"; mkProcessInfo 0 0 "p"]) 0 = 2%nat.
Proof.
  assert (Hperm : forall l, Permutation (MacOS.join_order libproc_zero_tail l) l)
    by (intros l; reflexivity).
  assert (Hok : MacOS.get_process_infos libproc_zero_tail
                = Ok [mkProcessInfo 1 0 "p"; mkProcessInfo 2 0 "p"; mkProcessInfo 0 0 "p";
                      mkProcessInfo 0 0 "p"]) by (vm_compute; reflexivity).
  split; [exact Hperm|]. split; [exact Hok|].
  rewrite (macos_get_process_infos_count _ _ 0 Hperm Hok). vm_compute. reflexivity.
Defined.
